(** * GarminDeviceExport: the KMZ export algorithm (algorithms/export_kmz.py)

    A shallow embedding of [ExportKMZAlgorithm]: the tile-budget solver
    [_scale_for_tile_cap], the band normalisation, the tile grid with its
    geographic boxes, the per-tile size enforcement and the naming of the
    archive entries.

    Numbers.  Python [int] is [Z].  A Python [float] is an IEEE 754
    double: it is modelled by the rational number it stands for, and the
    operations of the source on doubles round their exact result to the
    nearest double, ties to even ([Float.f64]); numpy's float32 arithmetic
    rounds to [Float.f32] in the same way.  Infinities and NaN are outside
    the model: no operation below overflows on a raster whose sides are
    below 2^1000 pixels.  Three expressions on sizes in pixels are taken
    exactly, because the double has the same integer part for every size
    below 2^46: the conversion [float(n)], the quotients
    [ceil(n / float(d))] of the tile grid and the product [int(w*0.9)] of
    the shrink loop.  The one irrational operation of the source,
    [math.sqrt], is read over the real numbers ([R]) where only the test
    [scale_mp < 1.0] matters. *)

From Stdlib Require Import ZArith QArith Qround Qminmax Qabs Qpower.
From Stdlib Require Import Lia Lqa List Bool String Ascii Strings.Byte DecimalString.
From Stdlib Require Import Reals Lra.
From Stdlib Require DecimalFacts DecimalN.
Import ListNotations.

#[local] Open Scope Z_scope.

(* ================================================================== *)
(** * Python primitives *)
(* ================================================================== *)

Module Py.

(** [math.ceil(x)] on a float. *)
Definition ceil (x : Q) : Z := Qceiling x.

(** [int(x)] on a float: truncation toward zero. *)
Definition int (x : Q) : Z :=
  if Qle_bool 0 x then Qfloor x else Qceiling x.

(** [round(x)] on a float: nearest integer, ties to the even one. *)
Definition round (x : Q) : Z :=
  let f := Qfloor x in
  match Qcompare (x - inject_Z f) (1 # 2) with
  | Lt => f
  | Gt => f + 1
  | Eq => if Z.even f then f else f + 1
  end.

(** [float(n)], and the implicit conversion in mixed arithmetic, for an
    integer that a double holds exactly. *)
Definition float (n : Z) : Q := inject_Z n.

End Py.

(* ================================================================== *)
(** * IEEE 754 arithmetic *)
(* ================================================================== *)

Module Float.

(** [2^e], for any integer [e]. *)
Definition pow2 (e : Z) : Q := (2 ^ e)%Q.

(** The exponent of the binade of a positive number:
    [2^(ilog2 x) <= x < 2^(ilog2 x + 1)]. *)
Definition ilog2 (x : Q) : Z :=
  let e := Z.log2 (Qnum x) - Z.log2 (Zpos (Qden x)) in
  if Qle_bool (pow2 e) x then e else e - 1.

(** Rounding to the nearest number with [prec] significant bits whose last
    bit has an exponent of at least [emin] (gradual underflow), ties to the
    even one: the rounding of every IEEE 754 operation.  The result is a
    fraction in lowest terms. *)
Definition round_to (prec emin : Z) (x : Q) : Q :=
  let x := Qred x in
  if Qeq_bool x 0 then 0%Q
  else
    let e := Z.max (ilog2 (Qabs x) - (prec - 1)) emin in
    Qred (inject_Z (Py.round (x / pow2 e)) * pow2 e).

(** binary64, the Python [float]. *)
Definition f64 : Q -> Q := round_to 53 (-1074).

(** binary32, numpy's [float32]. *)
Definition f32 : Q -> Q := round_to 24 (-149).

(** [float(n)] for any integer, and the conversion of an [int] operand in
    mixed arithmetic. *)
Definition of_int (n : Z) : Q := f64 (inject_Z n).

(** [x + y], [x - y], [x * y] and [x / y] on two Python floats ([y] not
    zero in the last). *)
Definition add (x y : Q) : Q := f64 (x + y).
Definition sub (x y : Q) : Q := f64 (x - y).
Definition mul (x y : Q) : Q := f64 (x * y).
Definition div (x y : Q) : Q := f64 (x / y).

End Float.

(* ================================================================== *)
(** * Module constants *)
(* ================================================================== *)

Definition MAX_PIXELS : Z := 1000000.
Definition MAX_BYTES : Z := 3 * 1024 * 1024.
Definition JPEG_QUALITY : Z := 75.

(** [TILE_SIDE = int(math.ceil(math.sqrt(MAX_PIXELS)))]: the least integer
    whose square reaches [MAX_PIXELS]. *)
Definition TILE_SIDE : Z :=
  let r := Z.sqrt MAX_PIXELS in
  if r * r =? MAX_PIXELS then r else r + 1.

Definition DEVICES : list string :=
  ["eTrex (<=100 tiles)"%string; "GPSMAP (<=500 tiles)"%string; "Custom"%string].
Definition DEVICE_LIMITS : list Z := [100; 500].

(* ================================================================== *)
(** * The tile-budget solver: [_scale_for_tile_cap] *)
(* ================================================================== *)

(** [int(math.ceil((D * mid) / float(tile_side)))]: the product and the
    quotient are rounded to doubles before the ceiling is taken. *)
Definition grid_dim (D : Z) (mid : Q) (tile_side : Z) : Z :=
  Py.ceil (Float.div (Float.mul (Float.of_int D) mid) (Float.of_int tile_side)).

(** [max(1, cols) * max(1, rows)] *)
Definition grid_tiles (W H tile_side : Z) (mid : Q) : Z :=
  let cols := grid_dim W mid tile_side in
  let rows := grid_dim H mid tile_side in
  Z.max 1 cols * Z.max 1 rows.

(** The test of the bisection: [max(1, cols) * max(1, rows) <= cap]. *)
Definition fits (W H tile_side cap : Z) (mid : Q) : bool :=
  grid_tiles W H tile_side mid <=? cap.

(** [mid = (lo + hi) / 2.0] *)
Definition midpoint (lo hi : Q) : Q := Float.div (Float.add lo hi) 2.

(** [for _ in range(n)] on the pair [(lo, hi)]. *)
Fixpoint bisect (n : nat) (W H tile_side cap : Z) (lo hi : Q) : Q * Q :=
  match n with
  | O => (lo, hi)
  | S n' =>
      let mid := midpoint lo hi in
      if fits W H tile_side cap mid
      then bisect n' W H tile_side cap mid hi
      else bisect n' W H tile_side cap lo mid
  end.

(** The lower end after the 40 rounds. *)
Definition bisect_lo (W H tile_side cap : Z) : Q :=
  fst (bisect 40 W H tile_side cap 0 1).

(** The floor of the returned scale: the double written [1e-6]. *)
Definition SCALE_FLOOR : Q := Float.f64 1e-6.

(** [return max(1e-6, lo)] *)
Definition _scale_for_tile_cap (W H tile_side cap : Z) : Q :=
  Qmax SCALE_FLOOR (bisect_lo W H tile_side cap).

(** The number of tiles the documentation of the solver speaks of,
    [max(1, ceil(W*s/t)) * max(1, ceil(H*s/t))], in exact arithmetic: what
    the comment of the source and the specification promise to be within
    the cap. *)
Definition exact_grid (W H tile_side : Z) (s : Q) : Z :=
  Z.max 1 (Qceiling (inject_Z W * s / inject_Z tile_side))
  * Z.max 1 (Qceiling (inject_Z H * s / inject_Z tile_side)).

(** The interval of the bisection after [k] rounds from [(0.0, 1.0)]:
    [lo = a / 2^k] and [hi = (a + 1) / 2^k]. *)
Definition dyadic (k a : Z) (lo hi : Q) : Prop :=
  0 <= a < 2 ^ k
  /\ (lo == inject_Z a * Float.pow2 (- k))%Q
  /\ (hi == inject_Z (a + 1) * Float.pow2 (- k))%Q.

(* ================================================================== *)
(** * Exceptions *)
(* ================================================================== *)

(** The ways a run can stop without a result.  [FuelExhausted] is not a
    Python exception: it stands for a [while] loop that has used up the
    bound the model gives it. *)
Inductive py_error : Set :=
  AttributeError | ValueError | ZeroDivisionError | FuelExhausted.

Inductive outcome (A : Type) : Type :=
| Done (a : A)
| Raised (e : py_error).

Arguments Done {A} a.
Arguments Raised {A} e.

Definition bind {A B : Type} (c : outcome A) (k : A -> outcome B) : outcome B :=
  match c with
  | Done a => k a
  | Raised e => Raised e
  end.

Notation "x <- c ;; k" := (bind c (fun x => k))
  (at level 61, c at next level, right associativity).

Definition raised {A : Type} (c : outcome A) : bool :=
  match c with Done _ => false | Raised _ => true end.

(** [range(n)] *)
Definition range (n : Z) : list Z := map Z.of_nat (seq 0 (Z.to_nat n)).

(** [for x in xs: body], threading the variables the body assigns. *)
Fixpoint for_each {A S : Type} (xs : list A) (body : A -> S -> outcome S) (st : S)
  : outcome S :=
  match xs with
  | [] => Done st
  | x :: xs' => st' <- body x st ;; for_each xs' body st'
  end.

(* ================================================================== *)
(** * Band normalisation (the [bands == 1] / [else] block) *)
(* ================================================================== *)

(** The sample types GDAL hands to numpy. *)
Inductive dtype : Set :=
  UInt8 | UInt16 | Int16 | UInt32 | Int32 | Float32 | Float64.

(** [rgb.dtype != np.uint8], negated. *)
Definition is_uint8 (d : dtype) : bool :=
  match d with UInt8 => true | _ => false end.

(** One band: [height] rows of [width] samples, each the number it stands
    for. *)
Definition band : Type := list (list Q).

(** What [ds.ReadAsArray] returns: the sample type and the bands.  For a
    one-band dataset numpy gives the band itself (a 2-D array); it is the
    one element of [arr_bands]. *)
Record ndarray : Type := mk_ndarray {
  arr_dtype : dtype;
  arr_bands : list band
}.

Definition samples (a : band) : list Q := List.concat a.

(** [a.min()] and [a.max()]; numpy raises on an array without samples. *)
Definition amin (a : band) : option Q :=
  match samples a with
  | [] => None
  | v :: vs => Some (fold_left Qmin vs v)
  end.

Definition amax (a : band) : option Q :=
  match samples a with
  | [] => None
  | v :: vs => Some (fold_left Qmax vs v)
  end.

(** [np.zeros_like(a)], and the broadcast of [rgb[i] = 0]. *)
Definition zeros_like (a : band) : band := map (map (fun _ => 0%Q)) a.

(** [arr.astype('float32')]: every sample rounded to the nearest float32. *)
Definition astype_float32 (a : band) : band := map (map Float.f32) a.

(** [255.0 / (mx - mn)] on the Python floats [mn = float(a.min())] and
    [mx = float(a.max())]: a division of doubles, which raises
    [ZeroDivisionError] when [mx - mn] is zero. *)
Definition stretch_factor (mn mx : Q) : outcome Q :=
  let d := Float.sub mx mn in
  if Qeq_bool d 0 then Raised ZeroDivisionError else Done (Float.div 255 d).

(** [(a - mn) * (255.0 / (mx - mn))] on a float32 array: numpy takes the
    two Python floats as float32 scalars and rounds the difference and the
    product to float32. *)
Definition stretch (mn mx : Q) (a : band) : outcome band :=
  k <- stretch_factor mn mx ;;
  Done (map (map (fun v =>
                    Float.f32 (Float.f32 (v - Float.f32 mn) * Float.f32 k))) a).

(** [zeros if mx <= mn else (a - mn) * (255.0 / (mx - mn))], after
    [mn, mx = float(a.min()), float(a.max())], which raises [ValueError] on
    an array without samples. *)
Definition stretch_band (a : band) : outcome band :=
  match amin a, amax a with
  | Some mn, Some mx =>
      if Qle_bool mx mn then Done (zeros_like a) else stretch mn mx a
  | _, _ => Raised ValueError
  end.

(** [astype('uint8')] on a float sample: the fraction is dropped and the
    integer is taken modulo 256. *)
Definition to_uint8 (v : Q) : Q := inject_Z (Py.int v mod 256).

Definition astype_uint8 (a : band) : band := map (map to_uint8) a.

(** [for i in range(rgb.shape[0])]: the stretch band by band. *)
Fixpoint stretch_bands (bs : list band) : outcome (list band) :=
  match bs with
  | [] => Done []
  | b :: bs' =>
      b' <- stretch_band b ;;
      r <- stretch_bands bs' ;;
      Done (b' :: r)
  end.

(** The normalisation of [processAlgorithm]: from [arr] to [rgb]. *)
Definition normalize (arr : ndarray) : outcome ndarray :=
  match arr_bands arr with
  | [a] =>
      a' <- stretch_band (astype_float32 a) ;;
      let a8 := astype_uint8 a' in
      Done (mk_ndarray UInt8 [a8; a8; a8])
  | bs =>
      let rgb := firstn 3 bs in
      if is_uint8 (arr_dtype arr)
      then Done (mk_ndarray (arr_dtype arr) rgb)
      else
        rgb' <- stretch_bands (map astype_float32 rgb) ;;
        Done (mk_ndarray UInt8 (map astype_uint8 rgb'))
  end.

(** [arr.shape]: (height, width) of the first band. *)
Definition band_height (a : band) : Z := Z.of_nat (List.length a).
Definition band_width (a : band) : Z := Z.of_nat (List.length (hd [] a)).

(* ================================================================== *)
(** * The imaging library (PIL) *)
(* ================================================================== *)

(** What the algorithm uses of PIL: images with a size, [Image.fromarray],
    [crop], [resize] with the Lanczos filter, and the JPEG encoder. *)
Class Imaging : Type := {
  image : Type;
  img_size : image -> Z * Z;
  fromarray : ndarray -> image;
  crop : image -> Z * Z * Z * Z -> image;
  resize : image -> Z * Z -> image;
  save_jpeg : image -> Z -> bool -> bool -> list Byte.byte
}.

Definition img_width `{Imaging} (img : image) : Z := fst (img_size img).
Definition img_height `{Imaging} (img : image) : Z := snd (img_size img).

(** The part of PIL's contract the algorithm relies on: the size of a crop
    and of a resized image. *)
Class ImagingLaws `{Imaging} : Prop := {
  size_crop : forall img x0 y0 x1 y1,
    x0 < x1 -> y0 < y1 ->
    img_size (crop img (x0, y0, x1, y1)) = (x1 - x0, y1 - y0);
  size_resize : forall img w h,
    1 <= w -> 1 <= h -> img_size (resize img (w, h)) = (w, h)
}.

(** [len(jpg)] *)
Definition len (b : list Byte.byte) : Z := Z.of_nat (List.length b).

(** [img.convert('RGB').save(buf, 'JPEG', quality=JPEG_QUALITY,
    optimize=True, progressive=False)] *)
Definition jpg75_nonprog `{Imaging} (img : image) : list Byte.byte :=
  save_jpeg img JPEG_QUALITY true false.

(* ================================================================== *)
(** * The tile grid and the geographic boxes *)
(* ================================================================== *)

(** [rect]: the WGS84 bounding box of the layer. *)
Record extent : Type := mk_extent {
  north0 : Q;
  south0 : Q;
  east0 : Q;
  west0 : Q
}.

(** [int(math.ceil(n / float(d)))] *)
Definition ceil_div (n d : Z) : Z := Py.ceil (Py.float n / Py.float d).

(** The same expression with the roundings the machine makes: the two
    conversions to doubles and the quotient. *)
Definition ceil_div_f64 (n d : Z) : Z :=
  Py.ceil (Float.div (Float.of_int n) (Float.of_int d)).

(** [(x0, y0, x1, y1)] of the tile in row [r], column [c]. *)
Definition tile_box (width height tile_w tile_h r c : Z) : Z * Z * Z * Z :=
  let x0 := c * tile_w in
  let y0 := r * tile_h in
  let x1 := Z.min width (x0 + tile_w) in
  let y1 := Z.min height (y0 + tile_h) in
  (x0, y0, x1, y1).

(** [tile.size] of the crop of a box: [(x1 - x0, y1 - y0)]. *)
Definition box_width (box : Z * Z * Z * Z) : Z :=
  let '(x0, _, x1, _) := box in x1 - x0.
Definition box_height (box : Z * Z * Z * Z) : Z :=
  let '(_, y0, _, y1) := box in y1 - y0.

(** [x0 >= x1 or y0 >= y1] *)
Definition degenerate (box : Z * Z * Z * Z) : bool :=
  let '(x0, y0, x1, y1) := box in (x0 >=? x1) || (y0 >=? y1).

(** [west0 + lon_span * (x / float(base_img.width))], with
    [lon_span = east0 - west0]: four operations on doubles. *)
Definition lon_at (ext : extent) (width x : Z) : Q :=
  let lon_span := Float.sub (east0 ext) (west0 ext) in
  Float.add (west0 ext)
    (Float.mul lon_span (Float.div (Py.float x) (Py.float width))).

(** [north0 - lat_span * (y / float(base_img.height))], with
    [lat_span = north0 - south0]: the Y axis is flipped. *)
Definition lat_at (ext : extent) (height y : Z) : Q :=
  let lat_span := Float.sub (north0 ext) (south0 ext) in
  Float.sub (north0 ext)
    (Float.mul lat_span (Float.div (Py.float y) (Py.float height))).

(** The coordinates of an extent are doubles. *)
Definition is_double (v : Q) : Prop := (Float.f64 v == v)%Q.

Definition extent_ok (ext : extent) : Prop :=
  is_double (north0 ext) /\ is_double (south0 ext)
  /\ is_double (east0 ext) /\ is_double (west0 ext).

(** One element of [overlays]: [(fname, bytes, west, east, south, north)]. *)
Record overlay : Type := mk_overlay {
  fname : string;
  data : list Byte.byte;
  twest : Q;
  teast : Q;
  tsouth : Q;
  tnorth : Q
}.

(** [f"{idx:03d}"]: the decimal digits, padded with zeros to width 3; a
    sign counts in the width. *)
Definition digits (n : Z) : string :=
  NilZero.string_of_uint (N.to_uint (Z.to_N n)).

Definition zfill (width : nat) (s : string) : string :=
  (string_of_list_ascii (repeat "0"%char (width - String.length s)) ++ s)%string.

Definition format_03d (idx : Z) : string :=
  if idx <? 0
  then ("-" ++ zfill 2 (digits (- idx)))%string
  else zfill 3 (digits idx).

(** The three decimal digits of a number below 1000, hundreds first: what
    "zero-padded 3-digit" says, to compare [format_03d] with. *)
Definition digit_char (d : Z) : ascii := ascii_of_nat (48 + Z.to_nat d).

Definition three_digits (n : Z) : string :=
  String (digit_char (n / 100))
    (String (digit_char (n / 10 mod 10))
       (String (digit_char (n mod 10)) EmptyString)).

(** The number a string of decimal digits stands for, leading zeros
    allowed; [None] when the string has another character.  It reads the
    digits of a name back, to say what they are. *)
Definition read_decimal (s : string) : option Z :=
  option_map (fun d => Z.of_N (N.of_uint d)) (NilEmpty.uint_of_string s).

(** [f"image_{idx:03d}.jpg"] *)
Definition image_name (idx : Z) : string :=
  ("image_" ++ format_03d idx ++ ".jpg")%string.

(* ================================================================== *)
(** * The per-tile limits *)
(* ================================================================== *)

(** [scale_mp = min(1.0, math.sqrt(MAX_PIXELS / float(max(1, tw*th))))],
    over the reals. *)
Definition scale_mp (tw th : Z) : R :=
  Rmin 1 (sqrt (IZR MAX_PIXELS / IZR (Z.max 1 (tw * th)))).

(** [scale_mp < 1.0], decided on the integers. *)
Definition mp_over (tw th : Z) : bool := MAX_PIXELS <? Z.max 1 (tw * th).

(** [int(d * scale_mp)] when [scale_mp < 1.0], computed on the integers:
    the integer square root of [d*d*MAX_PIXELS / (tw*th)]. *)
Definition mp_side (d tw th : Z) : Z :=
  Z.sqrt (d * d * MAX_PIXELS / Z.max 1 (tw * th)).

(** "Enforce 1MP per tile". *)
Definition enforce_mp `{Imaging} (tile : image) : image :=
  let '(tw, th) := img_size tile in
  if mp_over tw th
  then resize tile (Z.max 1 (mp_side tw tw th), Z.max 1 (mp_side th tw th))
  else tile.

(** [max(1, int(d * 0.9))] *)
Definition shrink_side (d : Z) : Z := Z.max 1 (Py.int (Py.float d * 0.9)).

(** The same expression with the roundings the machine makes: [0.9] is the
    double nearest to nine tenths, and the product is rounded. *)
Definition shrink_side_f64 (d : Z) : Z :=
  Z.max 1 (Py.int (Float.mul (Float.of_int d) (Float.f64 0.9))).

(** The guard of the loop:
    [len(jpg) > MAX_BYTES and (tile.width*tile.height) > 64*64]. *)
Definition too_big `{Imaging} (tile : image) (jpg : list Byte.byte) : bool :=
  (len jpg >? MAX_BYTES) && (img_width tile * img_height tile >? 64 * 64).

(** The [while] loop, with a bound on the number of rounds; [None] when the
    bound is used up before the guard fails. *)
Fixpoint shrink `{Imaging} (fuel : nat) (tile : image) (jpg : list Byte.byte)
  : option (image * list Byte.byte) :=
  if too_big tile jpg then
    match fuel with
    | O => None
    | S fuel' =>
        let tile' :=
          resize tile (shrink_side (img_width tile), shrink_side (img_height tile)) in
        shrink fuel' tile' (jpg75_nonprog tile')
    end
  else Some (tile, jpg).

(** A number of rounds that is always enough (see [shrink_terminates]). *)
Definition shrink_fuel `{Imaging} (tile : image) : nat :=
  Z.to_nat (img_width tile + img_height tile).

(** The limits on one tile: the 1 MP step, the first encoding, the loop. *)
Definition enforce `{Imaging} (tile : image) : option (image * list Byte.byte) :=
  let tile := enforce_mp tile in
  let jpg := jpg75_nonprog tile in
  shrink (shrink_fuel tile) tile jpg.

(* ================================================================== *)
(** * The tiling loop *)
(* ================================================================== *)

(** The body of the inner loop, on the loop variables [(idx, overlays)]. *)
Definition tile_step `{Imaging} (base_img : image) (ext : extent)
  (tile_w tile_h r c : Z) (st : Z * list overlay) : outcome (Z * list overlay) :=
  let '(idx, overlays) := st in
  let width := img_width base_img in
  let height := img_height base_img in
  let box := tile_box width height tile_w tile_h r c in
  if degenerate box then Done (idx + 1, overlays)
  else
    let '(x0, y0, x1, y1) := box in
    match enforce (crop base_img box) with
    | None => Raised FuelExhausted
    | Some (_, jpg) =>
        let o := mk_overlay (image_name idx) jpg
                   (lon_at ext width x0) (lon_at ext width x1)
                   (lat_at ext height y1) (lat_at ext height y0) in
        Done (idx + 1, overlays ++ [o])
    end.

(** [for r in range(rows): for c in range(cols): ...] from [idx = 0] and
    [overlays = []]. *)
Definition tiles_loop `{Imaging} (base_img : image) (ext : extent) (cols rows : Z)
  : outcome (list overlay) :=
  if (cols =? 0) || (rows =? 0) then Raised ZeroDivisionError
  else
    let tile_w := ceil_div (img_width base_img) cols in
    let tile_h := ceil_div (img_height base_img) rows in
    st <- for_each (range rows)
            (fun r => for_each (range cols) (tile_step base_img ext tile_w tile_h r))
            (0, []) ;;
    Done (snd st).

(* ================================================================== *)
(** * The loop, cell by cell *)
(* ================================================================== *)

(** The cells [(r, c)] of the grid in scan order: row 0 first, each row
    from column 0 on. *)
Definition cells (cols rows : Z) : list (Z * Z) :=
  flat_map (fun r => map (fun c => (r, c)) (range cols)) (range rows).

(** The cells that are not skipped. *)
Definition live (width height tile_w tile_h : Z) (rc : Z * Z) : bool :=
  negb (degenerate (tile_box width height tile_w tile_h (fst rc) (snd rc))).

(** What one cell contributes to [overlays] when its turn comes with the
    counter at [idx]: nothing for a degenerate cell, else one overlay. *)
Definition cell_overlay `{Imaging} (base_img : image) (ext : extent)
  (tile_w tile_h idx : Z) (rc : Z * Z) : list overlay :=
  let width := img_width base_img in
  let height := img_height base_img in
  let box := tile_box width height tile_w tile_h (fst rc) (snd rc) in
  if degenerate box then []
  else
    match enforce (crop base_img box) with
    | None => []
    | Some (_, jpg) =>
        let '(x0, y0, x1, y1) := box in
        [mk_overlay (image_name idx) jpg
           (lon_at ext width x0) (lon_at ext width x1)
           (lat_at ext height y1) (lat_at ext height y0)]
    end.

(** The geographic box of one tile: [(twest, teast, tsouth, tnorth)]. *)
Record geo_box : Type := mk_geo_box {
  g_west : Q;
  g_east : Q;
  g_south : Q;
  g_north : Q
}.

(** The box the loop computes for the tile in row [r], column [c]: west and
    east from [x0] and [x1], north from [y0] and south from [y1]. *)
Definition tile_geo (ext : extent) (width height tile_w tile_h r c : Z) : geo_box :=
  let '(x0, y0, x1, y1) := tile_box width height tile_w tile_h r c in
  mk_geo_box (lon_at ext width x0) (lon_at ext width x1)
    (lat_at ext height y1) (lat_at ext height y0).

(** The box stored with an overlay. *)
Definition box_of (o : overlay) : geo_box :=
  mk_geo_box (twest o) (teast o) (tsouth o) (tnorth o).

(** Pixel [(x, y)] is inside [base_img.crop(box)]: left and upper edges
    included, right and lower edges excluded. *)
Definition in_pixels (box : Z * Z * Z * Z) (x y : Z) : bool :=
  let '(x0, y0, x1, y1) := box in
  (x0 <=? x) && (x <? x1) && (y0 <=? y) && (y <? y1).

(** The east and south edges of the whole image as the loop computes them,
    at [x1 = width] and [y1 = height]: [west0 + lon_span * 1.0] and
    [north0 - lat_span * 1.0]. *)
Definition east_edge (ext : extent) : Q :=
  Float.add (west0 ext) (Float.mul (Float.sub (east0 ext) (west0 ext)) 1).

Definition south_edge (ext : extent) : Q :=
  Float.sub (north0 ext) (Float.mul (Float.sub (north0 ext) (south0 ext)) 1).

(** A point lies in a box, with the convention of the pixel boxes: the west
    and north edges belong to the box, the east and south edges do not. *)
Definition in_geo (g : geo_box) (lon lat : Q) : Prop :=
  (g_west g <= lon)%Q /\ (lon < g_east g)%Q
  /\ (g_south g < lat)%Q /\ (lat <= g_north g)%Q.

(** One axis of a grid without skipped cells: [n] pixels cut into [k] pieces
    of [t] pixels, the last one shorter when [t] does not divide [n]. *)
Definition axis_ok (n k t : Z) : Prop :=
  1 <= k /\ 1 <= t /\ (k - 1) * t < n /\ n <= k * t.

(* ================================================================== *)
(** * The algorithm: parameters and [processAlgorithm] *)
(* ================================================================== *)

(** The parameter declarations of [initAlgorithm]. *)
Inductive parameter_kind : Type :=
| RasterLayerParameter
| FileDestinationParameter (file_filter : string)
| EnumParameter (options : list string) (defaultValue : Z)
| IntegerParameter (defaultValue : Z) (minValue : option Z).

Record parameter : Type := mk_parameter {
  param_name : string;
  param_kind : parameter_kind
}.

Definition INPUT : string := "INPUT".
Definition OUTPUT : string := "OUTPUT".
Definition DEVICE : string := "DEVICE".
Definition CUSTOM_CAP : string := "CUSTOM_CAP".

Definition initAlgorithm : list parameter :=
  [ mk_parameter INPUT RasterLayerParameter;
    mk_parameter OUTPUT (FileDestinationParameter "KMZ (*.kmz)");
    mk_parameter DEVICE (EnumParameter DEVICES 0);
    mk_parameter CUSTOM_CAP (IntegerParameter 250 (Some 1)) ].

(** The raster layer as the algorithm sees it: its name and size, its
    extent transformed to WGS84, and the resampled read
    [gdal.Translate(width=, height=, resampleAlg='average').ReadAsArray()]. *)
Record raster_layer : Type := mk_layer {
  layer_name : string;
  layer_width : Z;
  layer_height : Z;
  layer_rect : extent;
  layer_read : Z -> Z -> ndarray
}.

(** [tile_cap]: the Custom value is clamped at 1; a device index is clamped
    into [DEVICE_LIMITS]. *)
Definition tile_cap_of (dev_ix custom : Z) : Z :=
  if dev_ix =? 2 then Z.max 1 custom
  else
    let i := Z.max 0 (Z.min dev_ix (Z.of_nat (List.length DEVICE_LIMITS) - 1)) in
    nth (Z.to_nat i) DEVICE_LIMITS 0.

(** The numbers fixed before any pixel is read. *)
Record plan : Type := mk_plan {
  plan_cap : Z;
  plan_scale : Q;
  plan_newW : Z;
  plan_newH : Z;
  plan_cols : Z;
  plan_rows : Z
}.

Definition make_plan (W H dev_ix custom : Z) : plan :=
  let tile_cap := tile_cap_of dev_ix custom in
  let s := _scale_for_tile_cap W H TILE_SIDE tile_cap in
  let newW := Z.max 1 (Py.round (Float.mul (Float.of_int W) s)) in
  let newH := Z.max 1 (Py.round (Float.mul (Float.of_int H) s)) in
  let cols := ceil_div newW TILE_SIDE in
  let rows := ceil_div newH TILE_SIDE in
  mk_plan tile_cap s newW newH cols rows.

(** The KML document, before it is written out as text. *)
Record ground_overlay : Type := mk_ground_overlay {
  href : string;
  box_north : Q;
  box_south : Q;
  box_east : Q;
  box_west : Q
}.

Record kml_document : Type := mk_kml {
  kml_name : string;
  kml_tiles : Z;
  kml_overlays : list ground_overlay
}.

Inductive content : Type :=
| Kml (doc : kml_document)
| Jpeg (bytes : list Byte.byte).

(** The entries of the written archive, in the order they are written. *)
Definition archive : Type := list (string * content).

Definition build_kml (name : string) (tiles : Z) (overlays : list overlay)
  : kml_document :=
  mk_kml name tiles
    (map (fun o => mk_ground_overlay (fname o) (tnorth o) (tsouth o) (teast o) (twest o))
       overlays).

Definition write_archive (kml : kml_document) (overlays : list overlay) : archive :=
  ("doc.kml"%string, Kml kml) :: map (fun o => (fname o, Jpeg (data o))) overlays.

(** [processAlgorithm]; [layer] is [None] when the INPUT parameter does not
    name a raster layer. *)
Definition processAlgorithm `{Imaging}
  (layer : option raster_layer) (dev_ix custom : Z) : outcome archive :=
  match layer with
  | None => Raised AttributeError
  | Some layer =>
      let p := make_plan (layer_width layer) (layer_height layer) dev_ix custom in
      let tiles := plan_cols p * plan_rows p in
      let arr := layer_read layer (plan_newW p) (plan_newH p) in
      rgb <- normalize arr ;;
      let base_img := fromarray rgb in
      overlays <- tiles_loop base_img (layer_rect layer) (plan_cols p) (plan_rows p) ;;
      Done (write_archive (build_kml (layer_name layer) tiles overlays) overlays)
  end.

(* ================================================================== *)
(** * A small imaging library to run the definitions on *)
(* ================================================================== *)

(** Images reduced to their size; the encoder writes one byte per pixel. *)
#[local] Instance size_only : Imaging := {|
  image := Z * Z;
  img_size := fun i => i;
  fromarray := fun a =>
    match arr_bands a with
    | [] => (0, 0)
    | b :: _ => (band_width b, band_height b)
    end;
  crop := fun _ '(x0, y0, x1, y1) => (x1 - x0, y1 - y0);
  resize := fun _ s => s;
  save_jpeg := fun i _ _ _ => repeat Byte.x00 (Z.to_nat (fst i * snd i))
|}.

(** The image of that library with [w] x [h] pixels. *)
Definition px (w h : Z) : @image size_only := (w, h).

(** An extent to run the definitions on: 40..50 degrees north, 10..20 east. *)
Definition sample_extent : extent := mk_extent 50 40 20 10.

(** An extent whose corners are the doubles written 3.4, 0.7, -7.8 and
    -19.9. *)
Definition decimal_extent : extent :=
  mk_extent (Float.f64 3.4) (Float.f64 0.7) (Float.f64 (-7.8)) (Float.f64 (-19.9)).

(** An extent one unit in the last place wide and high: from 1 to the next
    double, [1 + 2^-52]. *)
Definition thin_extent : extent :=
  mk_extent (4503599627370497 # 4503599627370496) 1
            (4503599627370497 # 4503599627370496) 1.

(** A layer whose every read is a one-band array of the asked size, all
    samples equal to [v]. *)
Definition flat_layer (name : string) (W H : Z) (ext : extent) (v : Q) : raster_layer :=
  mk_layer name W H ext
    (fun w h => mk_ndarray Float32 [repeat (repeat v (Z.to_nat w)) (Z.to_nat h)]).

(* ================================================================== *)
(** * Facts about the Python primitives *)
(* ================================================================== *)

Lemma TILE_SIDE_eq : TILE_SIDE = 1000.
Proof. reflexivity. Qed.

(* ================================================================== *)
(** * Rounding: what it leaves unchanged *)
(* ================================================================== *)

Lemma two_neq_0 : ~ (2 == 0)%Q.
Proof. discriminate. Qed.

Lemma pow2_pos (e : Z) : (0 < Float.pow2 e)%Q.
Proof. unfold Float.pow2. apply Qpower_0_lt. reflexivity. Qed.

Lemma pow2_plus (a b : Z) : (Float.pow2 (a + b) == Float.pow2 a * Float.pow2 b)%Q.
Proof. unfold Float.pow2. apply Qpower_plus. exact two_neq_0. Qed.

Lemma pow2_Z (n : Z) : 0 <= n -> (inject_Z (2 ^ n) == Float.pow2 n)%Q.
Proof. intros Hn. unfold Float.pow2. now rewrite Zpower_Qpower. Qed.

Lemma pow2_lt (a b : Z) : a < b -> (Float.pow2 a < Float.pow2 b)%Q.
Proof. intros H. unfold Float.pow2. apply Qpower_lt_compat_l; [ exact H | reflexivity ]. Qed.

Lemma pow2_le (a b : Z) : a <= b -> (Float.pow2 a <= Float.pow2 b)%Q.
Proof. intros H. unfold Float.pow2. apply Qpower_le_compat_l; [ exact H | discriminate ]. Qed.

Lemma pow2_lt_inv (a b : Z) : (Float.pow2 a < Float.pow2 b)%Q -> a < b.
Proof. intros H. apply (Qpower_lt_compat_l_inv 2); [ exact H | reflexivity ]. Qed.

(** [Float.ilog2 x] is the exponent of the binade of [x]. *)
Lemma ilog2_spec (x : Q) :
  (0 < x)%Q -> (Float.pow2 (Float.ilog2 x) <= x)%Q /\ (x < Float.pow2 (Float.ilog2 x + 1))%Q.
Proof.
  intros Hx. destruct x as [n d].
  assert (Hn : 0 < n) by (unfold Qlt in Hx; simpl in Hx; lia).
  unfold Float.ilog2. cbn [Qnum Qden].
  set (a := Z.log2 n). set (b := Z.log2 (Z.pos d)).
  pose proof (Z.log2_nonneg n) as Ha0. pose proof (Z.log2_nonneg (Z.pos d)) as Hb0.
  fold a in Ha0. fold b in Hb0.
  pose proof (Z.log2_spec n Hn) as [Ha1 Ha2]. fold a in Ha1, Ha2.
  pose proof (Z.log2_spec (Z.pos d) ltac:(lia)) as [Hb1 Hb2]. fold b in Hb1, Hb2.
  replace (Z.succ a) with (a + 1) in Ha2 by lia.
  replace (Z.succ b) with (b + 1) in Hb2 by lia.
  assert (QA1 : (Float.pow2 a <= inject_Z n)%Q)
    by (rewrite <- pow2_Z by lia; now rewrite <- Zle_Qle).
  assert (QA2 : (inject_Z n < Float.pow2 (a + 1))%Q)
    by (rewrite <- pow2_Z by lia; now rewrite <- Zlt_Qlt).
  assert (QB1 : (Float.pow2 b <= inject_Z (Z.pos d))%Q)
    by (rewrite <- pow2_Z by lia; now rewrite <- Zle_Qle).
  assert (QB2 : (inject_Z (Z.pos d) < Float.pow2 (b + 1))%Q)
    by (rewrite <- pow2_Z by lia; now rewrite <- Zlt_Qlt).
  assert (HD : (0 < inject_Z (Z.pos d))%Q) by reflexivity.
  assert (Ex : (n # d == inject_Z n / inject_Z (Z.pos d))%Q) by apply Qmake_Qdiv.
  destruct (Qle_bool (Float.pow2 (a - b)) (n # d)) eqn:Eb.
  - apply Qle_bool_iff in Eb. split; [ exact Eb | ].
    rewrite Ex. apply Qlt_shift_div_r; [ exact HD | ].
    apply Qlt_le_trans with (Float.pow2 (a + 1)); [ exact QA2 | ].
    replace (a + 1) with ((a - b + 1) + b) by lia. rewrite pow2_plus.
    rewrite !(Qmult_comm (Float.pow2 (a - b + 1))).
    apply Qmult_le_compat_r; [ exact QB1 | apply Qlt_le_weak, pow2_pos ].
  - assert (Hlt : (n # d < Float.pow2 (a - b))%Q).
    { apply Qnot_le_lt. intros Hle. apply Qle_bool_iff in Hle. congruence. }
    split; [ | replace (a - b - 1 + 1) with (a - b) by lia; exact Hlt ].
    rewrite Ex. apply Qle_shift_div_l; [ exact HD | ].
    apply Qle_trans with (Float.pow2 a); [ | exact QA1 ].
    replace a with ((a - b - 1) + (b + 1)) at 2 by lia. rewrite pow2_plus.
    rewrite !(Qmult_comm (Float.pow2 (a - b - 1))).
    apply Qmult_le_compat_r; [ now apply Qlt_le_weak | apply Qlt_le_weak, pow2_pos ].
Qed.

Lemma round_Z (m : Z) : Py.round (inject_Z m) = m.
Proof.
  unfold Py.round. rewrite Qfloor_Z.
  assert (E : (inject_Z m - inject_Z m ?= 1 # 2)%Q = Lt).
  { assert (E0 : (inject_Z m - inject_Z m == 0)%Q) by ring.
    rewrite (Qcompare_comp _ _ E0 (1 # 2)%Q (1 # 2)%Q (Qeq_refl _)). reflexivity. }
  now rewrite E.
Qed.

Lemma round_comp (x y : Q) : (x == y)%Q -> Py.round x = Py.round y.
Proof.
  intros E. unfold Py.round. rewrite (Qfloor_comp x y E).
  assert (Ec : (x - inject_Z (Qfloor y) ?= 1 # 2)%Q = (y - inject_Z (Qfloor y) ?= 1 # 2)%Q).
  { apply Qcompare_comp; [ now rewrite E | reflexivity ]. }
  now rewrite Ec.
Qed.

Lemma round_to_comp (prec emin : Z) (x y : Q) :
  (x == y)%Q -> Float.round_to prec emin x = Float.round_to prec emin y.
Proof. intros E. unfold Float.round_to. now rewrite (Qred_complete x y E). Qed.

(** A number with at most [prec] significant bits, above the smallest
    exponent, is not changed by rounding. *)
Lemma round_to_exact (prec emin a j : Z) (x : Q) :
  Z.abs a < 2 ^ prec -> 0 <= prec -> emin <= j ->
  (x == inject_Z a * Float.pow2 j)%Q ->
  (Float.round_to prec emin x == x)%Q.
Proof.
  intros Ha Hp Hj Ex. unfold Float.round_to.
  pose proof (Qred_correct x) as Er. set (x' := Qred x) in *.
  destruct (Qeq_bool x' 0) eqn:E0.
  - apply Qeq_bool_eq in E0. rewrite <- Er, E0. reflexivity.
  - apply Qeq_bool_neq in E0.
    assert (Habs : (0 < Qabs x')%Q).
    { destruct (Qlt_le_dec 0 (Qabs x')) as [ H | H ]; [ exact H | ].
      exfalso. apply E0. pose proof (Qabs_nonneg x') as H0.
      assert (Hz : (Qabs x' == 0)%Q) by (apply Qle_antisym; assumption).
      destruct (Qabs_Qle_condition x' 0) as [Hc _].
      destruct (Hc H) as [H1 H2]. apply Qle_antisym; [ exact H2 | exact H1 ]. }
    destruct (ilog2_spec (Qabs x') Habs) as [HL _].
    set (L := Float.ilog2 (Qabs x')) in *.
    assert (Eabs : (Qabs x' == inject_Z (Z.abs a) * Float.pow2 j)%Q).
    { rewrite Er, Ex, Qabs_Qmult.
      rewrite (Qabs_pos (Float.pow2 j)) by apply Qlt_le_weak, pow2_pos.
      apply Qmult_comp; [ | reflexivity ].
      unfold inject_Z. symmetry. apply Zabs_Qabs. }
    assert (HLj : L < prec + j).
    { apply pow2_lt_inv. apply Qle_lt_trans with (Qabs x'); [ exact HL | ].
      rewrite Eabs, pow2_plus. apply Qmult_lt_compat_r; [ apply pow2_pos | ].
      rewrite <- pow2_Z by exact Hp. now rewrite <- Zlt_Qlt. }
    set (e := Z.max (L - (prec - 1)) emin).
    assert (He : e <= j) by (unfold e; lia).
    assert (Ej : (Float.pow2 j == inject_Z (2 ^ (j - e)) * Float.pow2 e)%Q).
    { rewrite pow2_Z by lia. rewrite <- pow2_plus. now replace (j - e + e) with j by lia. }
    assert (Eq : (x' / Float.pow2 e == inject_Z (a * 2 ^ (j - e)))%Q).
    { rewrite Er, Ex, Ej, inject_Z_mult. field.
      intros H0. pose proof (pow2_pos e) as Hpos. rewrite H0 in Hpos. discriminate. }
    rewrite (round_comp _ _ Eq), round_Z, Qred_correct.
    rewrite Ex, Ej, inject_Z_mult. ring.
Qed.

(* ================================================================== *)
(** * The solver: what the bisection keeps *)
(* ================================================================== *)

Lemma grid_tiles_pos W H t s : 1 <= grid_tiles W H t s.
Proof. unfold grid_tiles. nia. Qed.

Lemma pow2_half (k : Z) : (Float.pow2 (- k) == 2 * Float.pow2 (- (k + 1)))%Q.
Proof.
  replace (- k) with (1 + - (k + 1)) by lia. rewrite pow2_plus. reflexivity.
Qed.

(** On such an interval the midpoint is computed without rounding. *)
Lemma midpoint_dyadic (k a : Z) (lo hi : Q) :
  0 <= k <= 51 -> dyadic k a lo hi ->
  (midpoint lo hi == inject_Z (2 * a + 1) * Float.pow2 (- (k + 1)))%Q.
Proof.
  intros Hk (Ha & Elo & Ehi). unfold midpoint, Float.div, Float.add, Float.f64.
  assert (Hpow : 2 ^ k <= 2 ^ 51) by (apply Z.pow_le_mono_r; lia).
  assert (Esum : (lo + hi == inject_Z (2 * a + 1) * Float.pow2 (- k))%Q).
  { rewrite Elo, Ehi, !inject_Z_plus, inject_Z_mult.
    change (inject_Z 2) with 2%Q. change (inject_Z 1) with 1%Q. ring. }
  assert (E1 : (Float.round_to 53 (-1074) (lo + hi) == inject_Z (2 * a + 1) * Float.pow2 (- k))%Q).
  { transitivity (lo + hi)%Q; [ | exact Esum ].
    apply (round_to_exact 53 (-1074) (2 * a + 1) (- k));
      [ change (2 ^ 53) with (4 * 2 ^ 51); lia | lia | lia | exact Esum ]. }
  assert (E2 : (Float.round_to 53 (-1074) (lo + hi) / 2
                == inject_Z (2 * a + 1) * Float.pow2 (- (k + 1)))%Q).
  { rewrite E1, (pow2_half k). field. }
  transitivity (Float.round_to 53 (-1074) (lo + hi) / 2)%Q; [ | exact E2 ].
  apply (round_to_exact 53 (-1074) (2 * a + 1) (- (k + 1)));
    [ change (2 ^ 53) with (4 * 2 ^ 51); lia | lia | lia | exact E2 ].
Qed.

Lemma dyadic_upper (k a : Z) (lo hi : Q) :
  0 <= k <= 51 -> dyadic k a lo hi ->
  dyadic (k + 1) (2 * a + 1) (midpoint lo hi) hi.
Proof.
  intros Hk D. pose proof (midpoint_dyadic k a lo hi Hk D) as Em.
  destruct D as (Ha & Elo & Ehi). unfold dyadic.
  split; [ rewrite Z.pow_add_r by lia; lia | ]. split; [ exact Em | ].
  rewrite Ehi, (pow2_half k), !inject_Z_plus, !inject_Z_mult.
  change (inject_Z 2) with 2%Q. change (inject_Z 1) with 1%Q. ring.
Qed.

Lemma dyadic_lower (k a : Z) (lo hi : Q) :
  0 <= k <= 51 -> dyadic k a lo hi ->
  dyadic (k + 1) (2 * a) lo (midpoint lo hi).
Proof.
  intros Hk D. pose proof (midpoint_dyadic k a lo hi Hk D) as Em.
  destruct D as (Ha & Elo & Ehi). unfold dyadic.
  split; [ rewrite Z.pow_add_r by lia; lia | ]. split; [ | exact Em ].
  rewrite Elo, (pow2_half k), !inject_Z_mult.
  change (inject_Z 2) with 2%Q. ring.
Qed.

Lemma dyadic_order (k a : Z) (lo hi : Q) : dyadic k a lo hi -> (lo < hi)%Q.
Proof.
  intros (Ha & Elo & Ehi). rewrite Elo, Ehi.
  apply Qmult_lt_compat_r; [ apply pow2_pos | ].
  rewrite <- Zlt_Qlt. lia.
Qed.

Lemma mid_between (k a : Z) (lo hi : Q) :
  0 <= k <= 51 -> dyadic k a lo hi ->
  (lo < midpoint lo hi)%Q /\ (midpoint lo hi < hi)%Q.
Proof.
  intros Hk D. split.
  - exact (dyadic_order _ _ _ _ (dyadic_lower k a lo hi Hk D)).
  - exact (dyadic_order _ _ _ _ (dyadic_upper k a lo hi Hk D)).
Qed.

Lemma dyadic_start : dyadic 0 0 0 1.
Proof. unfold dyadic. repeat split; try lia; reflexivity. Qed.

Section SolverFacts.

Variables W H tile_side : Z.

Lemma bisect_S cap n lo hi :
  bisect (S n) W H tile_side cap lo hi =
  if fits W H tile_side cap (midpoint lo hi)
  then bisect n W H tile_side cap (midpoint lo hi) hi
  else bisect n W H tile_side cap lo (midpoint lo hi).
Proof. reflexivity. Qed.

(** The lower end is either the start value or a midpoint that passed the
    test. *)
Lemma bisect_lo_fits cap n lo hi :
  fits W H tile_side cap lo = true ->
  fits W H tile_side cap (fst (bisect n W H tile_side cap lo hi)) = true.
Proof.
  revert lo hi. induction n as [ | n IH ]; intros lo hi Hlo.
  - exact Hlo.
  - rewrite bisect_S.
    destruct (fits W H tile_side cap (midpoint lo hi)) eqn:E.
    + now apply IH.
    + now apply IH.
Qed.

(** The ends stay inside the interval they started from, and after [n]
    rounds they are the ends of a dyadic interval again. *)
Lemma bisect_between cap n :
  forall k a lo hi,
    0 <= k -> k + Z.of_nat n <= 52 -> dyadic k a lo hi ->
    let r := bisect n W H tile_side cap lo hi in
    (lo <= fst r)%Q /\ (fst r < snd r)%Q /\ (snd r <= hi)%Q
    /\ exists a', dyadic (k + Z.of_nat n) a' (fst r) (snd r).
Proof.
  induction n as [ | n IH ]; intros k a lo hi Hk Hn D.
  - cbn [bisect fst snd]. pose proof (dyadic_order _ _ _ _ D).
    repeat split; try apply Qle_refl; try assumption.
    exists a. now replace (k + Z.of_nat 0) with k by lia.
  - cbv zeta. rewrite bisect_S.
    assert (Hk' : 0 <= k <= 51) by lia.
    destruct (mid_between k a lo hi Hk' D) as [M1 M2].
    replace (k + Z.of_nat (S n)) with (k + 1 + Z.of_nat n) by lia.
    destruct (fits W H tile_side cap (midpoint lo hi)).
    + destruct (IH (k + 1) _ _ _ ltac:(lia) ltac:(lia) (dyadic_upper k a lo hi Hk' D))
        as (A & B & C & E).
      repeat split; try assumption. Lqa.lra.
    + destruct (IH (k + 1) _ _ _ ltac:(lia) ltac:(lia) (dyadic_lower k a lo hi Hk' D))
        as (A & B & C & E).
      repeat split; try assumption. Lqa.lra.
Qed.

Lemma fits_cap_mono cap1 cap2 s :
  cap1 <= cap2 ->
  fits W H tile_side cap1 s = true -> fits W H tile_side cap2 s = true.
Proof.
  unfold fits. intros Hc H1. apply Z.leb_le in H1. apply Z.leb_le. lia.
Qed.

(** Two bisections, for [cap1 <= cap2], run side by side: either they are
    still on the same interval, or the one for [cap1] has moved wholly below
    the one for [cap2]. *)
Lemma bisect_cap_mono cap1 cap2 n :
  cap1 <= cap2 ->
  forall k a1 a2 lo1 hi1 lo2 hi2,
    0 <= k -> k + Z.of_nat n <= 52 ->
    dyadic k a1 lo1 hi1 -> dyadic k a2 lo2 hi2 ->
    (lo1 = lo2 /\ hi1 = hi2) \/ (hi1 <= lo2)%Q ->
    (fst (bisect n W H tile_side cap1 lo1 hi1)
     <= fst (bisect n W H tile_side cap2 lo2 hi2))%Q.
Proof.
  intros Hc. induction n as [ | n IH ]; intros k a1 a2 lo1 hi1 lo2 hi2 Hk Hn D1 D2 Hrel.
  - cbn [bisect fst].
    pose proof (dyadic_order _ _ _ _ D1). pose proof (dyadic_order _ _ _ _ D2).
    destruct Hrel as [[-> _] | Hlt]; [ apply Qle_refl | Lqa.lra ].
  - rewrite !bisect_S.
    assert (Hk' : 0 <= k <= 51) by lia.
    destruct (mid_between k a1 lo1 hi1 Hk' D1) as [M1 M1'].
    destruct (mid_between k a2 lo2 hi2 Hk' D2) as [M2 M2'].
    pose proof (dyadic_upper k a1 lo1 hi1 Hk' D1) as U1.
    pose proof (dyadic_lower k a1 lo1 hi1 Hk' D1) as L1.
    pose proof (dyadic_upper k a2 lo2 hi2 Hk' D2) as U2.
    pose proof (dyadic_lower k a2 lo2 hi2 Hk' D2) as L2.
    destruct (fits W H tile_side cap1 (midpoint lo1 hi1)) eqn:E1;
      destruct (fits W H tile_side cap2 (midpoint lo2 hi2)) eqn:E2.
    + apply (IH (k + 1) _ _ _ _ _ _ ltac:(lia) ltac:(lia) U1 U2).
      destruct Hrel as [[-> ->] | Hlt]; [ left; split; reflexivity | right; Lqa.lra ].
    + destruct Hrel as [[-> ->] | Hlt].
      * apply (fits_cap_mono cap1 cap2) in E1; [ congruence | exact Hc ].
      * apply (IH (k + 1) _ _ _ _ _ _ ltac:(lia) ltac:(lia) U1 L2). right. Lqa.lra.
    + apply (IH (k + 1) _ _ _ _ _ _ ltac:(lia) ltac:(lia) L1 U2).
      destruct Hrel as [[-> ->] | Hlt]; right; [ apply Qle_refl | Lqa.lra ].
    + apply (IH (k + 1) _ _ _ _ _ _ ltac:(lia) ltac:(lia) L1 L2).
      destruct Hrel as [[-> ->] | Hlt]; [ left; split; reflexivity | right; Lqa.lra ].
Qed.

End SolverFacts.


(* ================================================================== *)
(** * The solver: its own test, the cap and monotonicity *)
(* ================================================================== *)

Lemma round_to_0 (prec emin : Z) (x : Q) :
  (x == 0)%Q -> Float.round_to prec emin x = 0%Q.
Proof. intros E. rewrite (round_to_comp prec emin x 0 E). reflexivity. Qed.

Lemma grid_dim_comp (D t : Z) (x y : Q) :
  (x == y)%Q -> grid_dim D x t = grid_dim D y t.
Proof.
  intros E. unfold grid_dim, Float.div, Float.mul, Float.f64.
  rewrite (round_to_comp 53 (-1074) (Float.of_int D * x) (Float.of_int D * y));
    [ reflexivity | now rewrite E ].
Qed.

Lemma fits_comp W H t cap (x y : Q) :
  (x == y)%Q -> fits W H t cap x = fits W H t cap y.
Proof.
  intros E. unfold fits, grid_tiles.
  now rewrite (grid_dim_comp W t x y E), (grid_dim_comp H t x y E).
Qed.

Lemma grid_dim_0 D t : grid_dim D 0 t = 0.
Proof.
  unfold grid_dim, Float.div, Float.mul, Float.f64.
  rewrite (round_to_0 53 (-1074) (Float.of_int D * 0)) by ring.
  rewrite (round_to_0 53 (-1074) (0 / Float.of_int t)) by (unfold Qdiv; ring).
  reflexivity.
Qed.

Lemma fits_0 W H t cap : 1 <= cap -> fits W H t cap 0 = true.
Proof.
  intros Hc. unfold fits, grid_tiles. rewrite !grid_dim_0.
  apply Z.leb_le. simpl. lia.
Qed.

(** C1 fails in the code, in two ways.  At the floor: for a raster of
    2000000000 x 1 pixels and a cap of one tile the bisection ends below
    [1e-6], where one tile would do; [max(1e-6, lo)] returns the floor, and
    at the floor the grid has two tiles, in the arithmetic of the code and
    in exact arithmetic alike, and two tiles are what the export then plans
    for a cap of one.  By rounding: for a raster of 21211 x 24746 pixels
    and a cap of 100 the returned scale passes the test of the code, which
    counts 99 tiles with the product [W * mid] rounded to a double, while
    the grid [ceil(W*s/t) * ceil(H*s/t)] of the comment and of the claim has
    110 tiles at that scale. *)
Theorem scale_breaks_cap :
  (bisect_lo 2000000000 1 1000 1 < SCALE_FLOOR)%Q
  /\ grid_tiles 2000000000 1 1000 (bisect_lo 2000000000 1 1000 1) = 1
  /\ _scale_for_tile_cap 2000000000 1 1000 1 = SCALE_FLOOR
  /\ grid_tiles 2000000000 1 1000 (_scale_for_tile_cap 2000000000 1 1000 1) = 2
  /\ exact_grid 2000000000 1 1000 (_scale_for_tile_cap 2000000000 1 1000 1) = 2
  /\ plan_cap (make_plan 2000000000 1 2 1) = 1
  /\ plan_cols (make_plan 2000000000 1 2 1) * plan_rows (make_plan 2000000000 1 2 1) = 2
  /\ _scale_for_tile_cap 21211 24746 1000 100 = (466531735891 # 1099511627776)%Q
  /\ grid_tiles 21211 24746 1000 (_scale_for_tile_cap 21211 24746 1000 100) = 99
  /\ exact_grid 21211 24746 1000 (_scale_for_tile_cap 21211 24746 1000 100) = 110.
Proof. repeat split; vm_compute; reflexivity. Qed.

(** C2.  For fixed [W], [H] and [tileSide] the returned scale is
    non-decreasing in [cap]. *)
Theorem scale_monotone_in_cap (W H tile_side cap1 cap2 : Z) :
  1 <= W -> 1 <= H -> 1 <= tile_side -> cap1 <= cap2 ->
  (_scale_for_tile_cap W H tile_side cap1 <= _scale_for_tile_cap W H tile_side cap2)%Q.
Proof.
  intros _ _ _ Hc. unfold _scale_for_tile_cap.
  apply Q.max_le_compat_l. unfold bisect_lo.
  apply (bisect_cap_mono W H tile_side cap1 cap2 40 Hc 0 0 0); try lia;
    try exact dyadic_start.
  left; split; reflexivity.
Qed.

Lemma scale_monotone_in_cap_witness :
  (_scale_for_tile_cap 4000 3000 1000 11 <= _scale_for_tile_cap 4000 3000 1000 12)%Q.
Proof. apply (scale_monotone_in_cap 4000 3000 1000 11 12); lia. Defined.

(* ================================================================== *)
(** * Rounding keeps the order *)
(* ================================================================== *)

(** [round] is the floor or the floor plus one. *)
Lemma round_cases (x : Q) :
  let f := Qfloor x in
  (Py.round x = f /\ (x - inject_Z f <= 1 # 2)%Q)
  \/ (Py.round x = f + 1 /\ (1 # 2 <= x - inject_Z f)%Q).
Proof.
  cbv zeta. unfold Py.round.
  destruct (Qcompare_spec (x - inject_Z (Qfloor x)) (1 # 2)) as [E | E | E].
  - destruct (Z.even (Qfloor x)); [ left | right ]; split;
      try reflexivity; rewrite E; apply Qle_refl.
  - left. split; [ reflexivity | now apply Qlt_le_weak ].
  - right. split; [ reflexivity | now apply Qlt_le_weak ].
Qed.

Lemma round_mono (x y : Q) : (x <= y)%Q -> Py.round x <= Py.round y.
Proof.
  intros Hxy. pose proof (Qfloor_resp_le x y Hxy) as Hf.
  destruct (Z.eq_dec (Qfloor x) (Qfloor y)) as [Ef | Nf].
  - unfold Py.round. rewrite Ef.
    destruct (Qcompare_spec (x - inject_Z (Qfloor y)) (1 # 2)) as [E | E | E];
      destruct (Qcompare_spec (y - inject_Z (Qfloor y)) (1 # 2)) as [E' | E' | E'];
      try (destruct (Z.even (Qfloor y))); try lia; exfalso; Lqa.lra.
  - destruct (round_cases x) as [[-> _] | [-> _]];
      destruct (round_cases y) as [[-> _] | [-> _]]; lia.
Qed.

Lemma round_opp (x : Q) : Py.round (- x) = - Py.round x.
Proof.
  pose proof (Qfloor_le x) as F1. pose proof (Qlt_floor x) as F2.
  rewrite inject_Z_plus in F2. change (inject_Z 1) with 1%Q in F2.
  destruct (Qeq_dec x (inject_Z (Qfloor x))) as [Ei | Ni].
  - rewrite (round_comp (- x) (inject_Z (- Qfloor x)))
      by (rewrite inject_Z_opp; now rewrite <- Ei).
    rewrite (round_comp x (inject_Z (Qfloor x)) Ei), !round_Z. reflexivity.
  - assert (Hlt : (inject_Z (Qfloor x) < x)%Q).
    { destruct (Qlt_le_dec (inject_Z (Qfloor x)) x) as [ H | H ]; [ exact H | ].
      exfalso. apply Ni. now apply Qle_antisym. }
    assert (Ef : Qfloor (- x) = - Qfloor x - 1).
    { pose proof (Qfloor_le (- x)) as G1. pose proof (Qlt_floor (- x)) as G2.
      rewrite inject_Z_plus in G2. change (inject_Z 1) with 1%Q in G2.
      assert (A : (inject_Z (Qfloor (- x)) < inject_Z (- Qfloor x))%Q)
        by (rewrite inject_Z_opp; Lqa.lra).
      assert (B : (inject_Z (- Qfloor x - 2) < inject_Z (Qfloor (- x)))%Q).
      { unfold Zminus. rewrite inject_Z_plus, inject_Z_opp.
        change (inject_Z (- (2))) with (- (2))%Q. Lqa.lra. }
      rewrite <- Zlt_Qlt in A, B. lia. }
    unfold Py.round. rewrite Ef.
    assert (Ed : (- x - inject_Z (- Qfloor x - 1) == 1 - (x - inject_Z (Qfloor x)))%Q).
    { unfold Zminus. rewrite inject_Z_plus, !inject_Z_opp.
      change (inject_Z 1) with 1%Q. ring. }
    rewrite (Qcompare_comp _ _ Ed (1 # 2)%Q (1 # 2)%Q (Qeq_refl _)).
    assert (Hev : Z.even (- Qfloor x - 1) = negb (Z.even (Qfloor x))).
    { replace (- Qfloor x - 1) with (- (Qfloor x + 1)) by lia.
      rewrite Z.even_opp, Z.even_add. now destruct (Z.even (Qfloor x)). }
    rewrite Hev.
    destruct (Qcompare_spec (x - inject_Z (Qfloor x)) (1 # 2)) as [E | E | E];
      destruct (Qcompare_spec (1 - (x - inject_Z (Qfloor x))) (1 # 2)) as [E' | E' | E'];
      try (exfalso; Lqa.lra); try (destruct (Z.even (Qfloor x)); cbn [negb]); lia.
Qed.

Lemma round_nonneg (x : Q) : (0 <= x)%Q -> 0 <= Py.round x.
Proof.
  intros Hx. pose proof (round_mono 0 x Hx) as H.
  change 0%Q with (inject_Z 0) in H. now rewrite round_Z in H.
Qed.

Lemma pow2_neq_0 (e : Z) : ~ (Float.pow2 e == 0)%Q.
Proof. intros H. pose proof (pow2_pos e) as Hp. rewrite H in Hp. discriminate. Qed.

(** The exponent of the last bit kept for [x]. *)
Lemma round_to_unfold (prec emin : Z) (x : Q) :
  ~ (x == 0)%Q ->
  let e := Z.max (Float.ilog2 (Qabs (Qred x)) - (prec - 1)) emin in
  (Float.round_to prec emin x == inject_Z (Py.round (x / Float.pow2 e)) * Float.pow2 e)%Q.
Proof.
  intros Hx e. unfold Float.round_to. fold e.
  destruct (Qeq_bool (Qred x) 0) eqn:E0.
  - exfalso. apply Hx. apply Qeq_bool_eq in E0. now rewrite <- (Qred_correct x).
  - rewrite Qred_correct.
    rewrite (round_comp (Qred x / Float.pow2 e) (x / Float.pow2 e));
      [ reflexivity | now rewrite Qred_correct ].
Qed.

Lemma Qabs_opp_eq (x : Q) : Qabs (- x) = Qabs x.
Proof. destruct x as [n d]. unfold Qabs, Qopp. cbn. now rewrite Z.abs_opp. Qed.

Lemma round_to_opp (prec emin : Z) (x : Q) :
  (Float.round_to prec emin (- x) == - Float.round_to prec emin x)%Q.
Proof.
  destruct (Qeq_dec x 0) as [E | N].
  - rewrite (round_to_0 prec emin x E), (round_to_0 prec emin (- x)); [ reflexivity | ].
    rewrite E. reflexivity.
  - assert (N' : ~ (- x == 0)%Q) by (intros H; apply N; Lqa.lra).
    rewrite (round_to_unfold prec emin x N), (round_to_unfold prec emin (- x) N').
    cbv zeta. rewrite Qred_opp, Qabs_opp_eq.
    set (e := Z.max (Float.ilog2 (Qabs (Qred x)) - (prec - 1)) emin).
    rewrite (round_comp (- x / Float.pow2 e) (- (x / Float.pow2 e)))
      by (unfold Qdiv; ring).
    rewrite round_opp, inject_Z_opp. ring.
Qed.

Lemma round_to_nonneg (prec emin : Z) (x : Q) :
  (0 <= x)%Q -> (0 <= Float.round_to prec emin x)%Q.
Proof.
  intros Hx. destruct (Qeq_dec x 0) as [E | N].
  - rewrite (round_to_0 prec emin x E). apply Qle_refl.
  - rewrite (round_to_unfold prec emin x N). cbv zeta.
    set (e := Z.max _ emin).
    apply Qmult_le_0_compat; [ | apply Qlt_le_weak, pow2_pos ].
    change 0%Q with (inject_Z 0). rewrite <- Zle_Qle. apply round_nonneg.
    apply Qle_shift_div_l; [ apply pow2_pos | ]. now rewrite Qmult_0_l.
Qed.

Lemma ilog2_pos_spec (x : Q) :
  (0 < x)%Q ->
  let E := Float.ilog2 (Qabs (Qred x)) in
  (Float.pow2 E <= x)%Q /\ (x < Float.pow2 (E + 1))%Q.
Proof.
  intros Hx E.
  assert (Ea : (Qabs (Qred x) == x)%Q)
    by (rewrite Qred_correct; apply Qabs_pos; now apply Qlt_le_weak).
  assert (Hpos : (0 < Qabs (Qred x))%Q) by now rewrite Ea.
  destruct (ilog2_spec _ Hpos) as [H1 H2]. fold E in H1, H2.
  rewrite Ea in H1, H2. now split.
Qed.

Lemma round_to_mono_pos (prec emin : Z) (x y : Q) :
  1 <= prec -> (0 < x)%Q -> (x <= y)%Q ->
  (Float.round_to prec emin x <= Float.round_to prec emin y)%Q.
Proof.
  intros Hp Hx Hxy.
  assert (Hy : (0 < y)%Q) by Lqa.lra.
  assert (Nx : ~ (x == 0)%Q) by (intros H; Lqa.lra).
  assert (Ny : ~ (y == 0)%Q) by (intros H; Lqa.lra).
  rewrite (round_to_unfold prec emin x Nx), (round_to_unfold prec emin y Ny).
  cbv zeta.
  destruct (ilog2_pos_spec x Hx) as [X1 X2]. destruct (ilog2_pos_spec y Hy) as [Y1 Y2].
  set (Ex := Float.ilog2 (Qabs (Qred x))) in *.
  set (Ey := Float.ilog2 (Qabs (Qred y))) in *.
  assert (HE : Ex <= Ey).
  { assert (Ex < Ey + 1); [ | lia ]. apply pow2_lt_inv. Lqa.lra. }
  set (ex := Z.max (Ex - (prec - 1)) emin). set (ey := Z.max (Ey - (prec - 1)) emin).
  pose proof (pow2_pos ex) as Px. pose proof (pow2_pos ey) as Py.
  destruct (Z.eq_dec ex ey) as [Ee | Ne].
  - rewrite <- Ee. apply Qmult_le_compat_r; [ | now apply Qlt_le_weak ].
    rewrite <- Zle_Qle. apply round_mono.
    unfold Qdiv. apply Qmult_le_compat_r; [ exact Hxy | ].
    apply Qlt_le_weak, Qinv_lt_0_compat, Px.
  - assert (Hlt : ex < ey) by (unfold ex, ey in *; lia).
    assert (Hey : ey = Ey - (prec - 1)) by (unfold ex, ey in *; lia).
    assert (Hex : Ex - (prec - 1) <= ex) by (unfold ex; lia).
    apply Qle_trans with (Float.pow2 Ey).
    + (* the rounded [x] stays below the binade of [y] *)
      assert (HM : 0 <= Ey - ex) by lia.
      assert (Hq : (x / Float.pow2 ex <= inject_Z (2 ^ (Ey - ex)))%Q).
      { apply Qle_shift_div_r; [ exact Px | ].
        rewrite pow2_Z by exact HM. rewrite <- pow2_plus.
        replace (Ey - ex + ex) with Ey by lia.
        apply Qle_trans with (Float.pow2 (Ex + 1)); [ now apply Qlt_le_weak | ].
        apply pow2_le. lia. }
      apply round_mono in Hq. rewrite round_Z in Hq.
      apply Qle_trans with (inject_Z (2 ^ (Ey - ex)) * Float.pow2 ex)%Q.
      * apply Qmult_le_compat_r; [ now rewrite <- Zle_Qle | now apply Qlt_le_weak ].
      * rewrite pow2_Z by exact HM. rewrite <- pow2_plus.
        replace (Ey - ex + ex) with Ey by lia. apply Qle_refl.
    + (* the rounded [y] stays in its binade *)
      assert (Hq : (inject_Z (2 ^ (prec - 1)) <= y / Float.pow2 ey)%Q).
      { apply Qle_shift_div_l; [ exact Py | ].
        rewrite pow2_Z by lia. rewrite <- pow2_plus.
        replace (prec - 1 + ey) with Ey by lia. exact Y1. }
      apply round_mono in Hq. rewrite round_Z in Hq.
      apply Qle_trans with (inject_Z (2 ^ (prec - 1)) * Float.pow2 ey)%Q.
      * rewrite pow2_Z by lia. rewrite <- pow2_plus.
        replace (prec - 1 + ey) with Ey by lia. apply Qle_refl.
      * apply Qmult_le_compat_r; [ now rewrite <- Zle_Qle | now apply Qlt_le_weak ].
Qed.

(** Rounding keeps the order. *)
Lemma round_to_mono (prec emin : Z) (x y : Q) :
  1 <= prec -> (x <= y)%Q ->
  (Float.round_to prec emin x <= Float.round_to prec emin y)%Q.
Proof.
  intros Hp Hxy.
  destruct (Qlt_le_dec 0 x) as [Hx | Hx]; [ now apply round_to_mono_pos | ].
  destruct (Qlt_le_dec y 0) as [Hy | Hy].
  - assert (H : (Float.round_to prec emin (- y) <= Float.round_to prec emin (- x))%Q)
      by (apply round_to_mono_pos; [ exact Hp | Lqa.lra | Lqa.lra ]).
    rewrite !round_to_opp in H. Lqa.lra.
  - pose proof (round_to_nonneg prec emin y Hy) as H1.
    assert (H2 : (0 <= Float.round_to prec emin (- x))%Q)
      by (apply round_to_nonneg; Lqa.lra).
    rewrite round_to_opp in H2. Lqa.lra.
Qed.

Lemma f64_mono (x y : Q) : (x <= y)%Q -> (Float.f64 x <= Float.f64 y)%Q.
Proof. apply round_to_mono. lia. Qed.

(* ================================================================== *)
(** * Normalisation *)
(* ================================================================== *)

Lemma Qmin_same (v : Q) : Qmin v v = v.
Proof. unfold Qmin, GenericMinMax.gmin. now destruct (v ?= v)%Q. Qed.

Lemma Qmax_same (v : Q) : Qmax v v = v.
Proof. unfold Qmax, GenericMinMax.gmax. now destruct (v ?= v)%Q. Qed.

Lemma fold_Qmin_same (v : Q) (vs : list Q) :
  (forall x, In x vs -> x = v) -> fold_left Qmin vs v = v.
Proof.
  induction vs as [ | x vs IH ]; intros Hall; simpl; [ reflexivity | ].
  rewrite (Hall x (or_introl eq_refl)), Qmin_same.
  apply IH. intros y Hy. apply Hall. now right.
Qed.

Lemma fold_Qmax_same (v : Q) (vs : list Q) :
  (forall x, In x vs -> x = v) -> fold_left Qmax vs v = v.
Proof.
  induction vs as [ | x vs IH ]; intros Hall; simpl; [ reflexivity | ].
  rewrite (Hall x (or_introl eq_refl)), Qmax_same.
  apply IH. intros y Hy. apply Hall. now right.
Qed.

Lemma samples_float32 (a : band) :
  samples (astype_float32 a) = map Float.f32 (samples a).
Proof. unfold samples, astype_float32. now rewrite concat_map. Qed.

Lemma zeros_like_float32 (a : band) : zeros_like (astype_float32 a) = zeros_like a.
Proof.
  unfold zeros_like, astype_float32. rewrite map_map.
  apply map_ext. intros row. now rewrite map_map.
Qed.

(** The division [255.0 / (mx - mn)] raises when the two are the same. *)
Lemma stretch_same (v : Q) (a : band) : stretch v v a = Raised ZeroDivisionError.
Proof.
  unfold stretch, stretch_factor, Float.sub, Float.f64.
  rewrite (round_to_0 53 (-1074) (v - v)) by ring. reflexivity.
Qed.

(** A band whose samples all equal [V]: minimum and maximum are the float32
    nearest to [V], and the band is stretched to zeros. *)
Lemma stretch_band_const (V : Q) (a : band) :
  samples a <> [] -> (forall x, In x (samples a) -> x == V) ->
  amin (astype_float32 a) = Some (Float.f32 V)
  /\ amax (astype_float32 a) = Some (Float.f32 V)
  /\ stretch_band (astype_float32 a) = Done (zeros_like a).
Proof.
  intros Hne Hall.
  assert (Hs : forall x, In x (samples (astype_float32 a)) -> x = Float.f32 V).
  { intros x Hx. rewrite samples_float32 in Hx. apply in_map_iff in Hx.
    destruct Hx as (y & <- & Hy). apply round_to_comp. now apply Hall. }
  assert (Hne' : samples (astype_float32 a) <> []).
  { rewrite samples_float32. destruct (samples a); [ contradiction | discriminate ]. }
  unfold stretch_band, amin, amax.
  destruct (samples (astype_float32 a)) as [ | v vs ] eqn:E; [ contradiction | ].
  assert (Hv : v = Float.f32 V) by (apply Hs; now left).
  assert (Hvs : forall x, In x vs -> x = v)
    by (intros x Hx; rewrite Hv; apply Hs; now right).
  rewrite (fold_Qmin_same v vs Hvs), (fold_Qmax_same v vs Hvs), Hv.
  repeat split.
  assert (Hle : Qle_bool (Float.f32 V) (Float.f32 V) = true)
    by (apply Qle_bool_iff, Qle_refl).
  now rewrite Hle, zeros_like_float32.
Qed.

Lemma astype_uint8_zeros (a : band) : astype_uint8 (zeros_like a) = zeros_like a.
Proof.
  unfold astype_uint8, zeros_like. rewrite map_map.
  apply map_ext. intros row. rewrite map_map. reflexivity.
Qed.

Lemma samples_zeros (a : band) (x : Q) : In x (samples (zeros_like a)) -> x = 0%Q.
Proof.
  unfold samples, zeros_like. intros Hin.
  apply in_concat in Hin. destruct Hin as (row & Hrow & Hx).
  apply in_map_iff in Hrow. destruct Hrow as (row0 & <- & _).
  apply in_map_iff in Hx. now destruct Hx as (y & <- & _).
Qed.

(** C7.  A one-band array whose samples all have the same value [V] is
    normalised, without an exception, to three bands of the same shape
    whose samples are all [0], of type uint8.  The test [mx <= mn] is what
    keeps the division away: minimum and maximum of the band are both the
    float32 nearest to [V], and the stretch [(a - mn) * (255.0 / (mx - mn))]
    on them raises [ZeroDivisionError]. *)
Theorem normalize_constant_band (d : dtype) (a : band) (V : Q) :
  samples a <> [] ->
  (forall x, In x (samples a) -> x == V) ->
  normalize (mk_ndarray d [a])
  = Done (mk_ndarray UInt8 [zeros_like a; zeros_like a; zeros_like a])
  /\ (forall b x, In b [zeros_like a; zeros_like a; zeros_like a] ->
        In x (samples b) -> x = 0%Q)
  /\ band_height (zeros_like a) = band_height a
  /\ map (@List.length Q) (zeros_like a) = map (@List.length Q) a
  /\ amin (astype_float32 a) = Some (Float.f32 V)
  /\ amax (astype_float32 a) = Some (Float.f32 V)
  /\ stretch (Float.f32 V) (Float.f32 V) (astype_float32 a)
     = Raised ZeroDivisionError.
Proof.
  intros Hne Hall.
  destruct (stretch_band_const V a Hne Hall) as (Hmin & Hmax & Hsb).
  split; [ | split; [ | split; [ | split; [ | split; [ exact Hmin | split; [ exact Hmax | ] ] ] ] ] ].
  - unfold normalize. cbn [arr_bands].
    rewrite Hsb. cbn [bind]. rewrite astype_uint8_zeros. reflexivity.
  - intros b x Hb Hx.
    assert (b = zeros_like a) as -> by (simpl in Hb; intuition congruence).
    now apply (samples_zeros a).
  - unfold band_height, zeros_like. now rewrite length_map.
  - unfold zeros_like. rewrite map_map. apply map_ext. intros row. apply length_map.
  - apply stretch_same.
Qed.

Lemma normalize_constant_band_witness :
  normalize (mk_ndarray Int16 [[[7; 7]; [7; 7]]%Q])
  = Done (mk_ndarray UInt8 [[[0; 0]; [0; 0]]; [[0; 0]; [0; 0]]; [[0; 0]; [0; 0]]]%Q).
Proof.
  apply (normalize_constant_band Int16 [[7; 7]; [7; 7]]%Q 7).
  - discriminate.
  - intros x Hx. simpl in Hx.
    repeat (destruct Hx as [<- | Hx]; [ reflexivity | ]). contradiction.
Defined.

(** C8.  An array of type uint8 with at least three bands is passed
    through: the result is its first three bands, unchanged. *)
Theorem normalize_uint8_passthrough (bs : list band) :
  (3 <= List.length bs)%nat ->
  normalize (mk_ndarray UInt8 bs) = Done (mk_ndarray UInt8 (firstn 3 bs)).
Proof.
  intros Hlen. unfold normalize. cbn [arr_bands arr_dtype].
  destruct bs as [ | b1 [ | b2 [ | b3 bs ] ] ]; simpl in Hlen; try lia.
  reflexivity.
Qed.

Lemma normalize_uint8_passthrough_witness :
  normalize (mk_ndarray UInt8 [[[10; 20]]; [[30; 40]]; [[50; 60]]; [[255; 255]]]%Q)
  = Done (mk_ndarray UInt8 (firstn 3 [[[10; 20]]; [[30; 40]]; [[50; 60]]; [[255; 255]]]%Q)).
Proof.
  apply (normalize_uint8_passthrough [[[10; 20]]; [[30; 40]]; [[50; 60]]; [[255; 255]]]%Q).
  simpl. lia.
Defined.

(** The stretch in float32, on a band that is not constant: the ramp
    [0 .. 7] has its maximum stretched to 254.99998, which the cast to
    uint8 cuts to 254. *)
Example normalize_ramp :
  normalize (mk_ndarray Int16 [[[0; 1; 2; 3; 4; 5; 6; 7]]%Q])
  = Done (mk_ndarray UInt8
            [[[0; 36; 72; 109; 145; 182; 218; 254]];
             [[0; 36; 72; 109; 145; 182; 218; 254]];
             [[0; 36; 72; 109; 145; 182; 218; 254]]]%Q).
Proof. vm_compute. reflexivity. Qed.

(* ================================================================== *)
(** * Integer forms of the float expressions *)
(* ================================================================== *)

Lemma ceil_div_opp (n d : Z) : ceil_div n d = - ((- n) / d).
Proof.
  unfold ceil_div, Py.ceil, Py.float, Qceiling.
  f_equal. rewrite Zdiv_Qdiv. apply Qfloor_comp.
  rewrite inject_Z_opp. unfold Qdiv. ring.
Qed.

Lemma ceil_div_spec (n d : Z) :
  0 < d -> d * (ceil_div n d - 1) < n <= d * ceil_div n d.
Proof.
  intros Hd. rewrite ceil_div_opp.
  pose proof (Z.div_mod (- n) d ltac:(lia)) as E.
  pose proof (Z.mod_pos_bound (- n) d Hd) as B.
  nia.
Qed.

Lemma ceil_div_pos (n d : Z) : 0 < d -> 1 <= n -> 1 <= ceil_div n d.
Proof. intros Hd Hn. pose proof (ceil_div_spec n d Hd). nia. Qed.

Lemma ceil_div_le (n d k : Z) : 0 < d -> n <= d * k -> ceil_div n d <= k.
Proof. intros Hd Hn. pose proof (ceil_div_spec n d Hd). nia. Qed.

Lemma py_int_nine_tenths (d : Z) :
  0 <= d -> Py.int (Py.float d * 0.9) = 9 * d / 10.
Proof.
  intros Hd. unfold Py.int, Py.float.
  change (0.9)%Q with (9 # 10)%Q.
  assert (H0 : Qle_bool 0 (inject_Z d * (9 # 10)) = true).
  { apply Qle_bool_iff. apply Qmult_le_0_compat.
    - change 0%Q with (inject_Z 0). now rewrite <- Zle_Qle.
    - discriminate. }
  rewrite H0. unfold Qfloor, Qmult, inject_Z. cbn [Qnum Qden].
  f_equal. lia.
Qed.

Lemma shrink_side_eq (d : Z) : 0 <= d -> shrink_side d = Z.max 1 (9 * d / 10).
Proof. intros Hd. unfold shrink_side. now rewrite py_int_nine_tenths. Qed.

Lemma shrink_side_bounds (d : Z) : 1 <= d -> 1 <= shrink_side d <= d.
Proof.
  intros Hd. rewrite shrink_side_eq by lia.
  pose proof (Z.div_mod (9 * d) 10 ltac:(lia)).
  pose proof (Z.mod_pos_bound (9 * d) 10 ltac:(lia)). lia.
Qed.

Lemma shrink_side_lt (d : Z) : 2 <= d -> shrink_side d < d.
Proof.
  intros Hd. rewrite shrink_side_eq by lia.
  pose proof (Z.div_mod (9 * d) 10 ltac:(lia)).
  pose proof (Z.mod_pos_bound (9 * d) 10 ltac:(lia)). lia.
Qed.


(* ================================================================== *)
(** * The per-tile limits: the shrink loop *)
(* ================================================================== *)

Section ShrinkFacts.

Context `{IL : ImagingLaws}.

Lemma shrink_unfold (fuel : nat) (tile : image) (jpg : list Byte.byte) :
  shrink fuel tile jpg =
  if too_big tile jpg then
    match fuel with
    | O => None
    | S fuel' =>
        let tile' :=
          resize tile (shrink_side (img_width tile), shrink_side (img_height tile)) in
        shrink fuel' tile' (jpg75_nonprog tile')
    end
  else Some (tile, jpg).
Proof. destruct fuel; reflexivity. Qed.

Lemma too_big_area (tile : image) (jpg : list Byte.byte) :
  too_big tile jpg = true ->
  MAX_BYTES < len jpg /\ 64 * 64 < img_width tile * img_height tile.
Proof.
  unfold too_big. intros Hb. apply andb_true_iff in Hb. destruct Hb as [H1 H2].
  apply Z.gtb_lt in H1. apply Z.gtb_lt in H2. split; assumption.
Qed.

Lemma too_big_false (tile : image) (jpg : list Byte.byte) :
  too_big tile jpg = false ->
  len jpg <= MAX_BYTES \/ img_width tile * img_height tile <= 64 * 64.
Proof.
  unfold too_big. intros Hb. apply andb_false_iff in Hb.
  destruct Hb as [Hb | Hb]; [ left | right ];
    rewrite Z.gtb_ltb in Hb; apply Z.ltb_ge in Hb; exact Hb.
Qed.

(** One round of the loop keeps both sides at least 1, does not grow them,
    and makes their sum strictly smaller. *)
Lemma shrink_round (tile : image) :
  1 <= img_width tile -> 1 <= img_height tile ->
  64 * 64 < img_width tile * img_height tile ->
  let tile' :=
    resize tile (shrink_side (img_width tile), shrink_side (img_height tile)) in
  1 <= img_width tile' <= img_width tile
  /\ 1 <= img_height tile' <= img_height tile
  /\ img_width tile' + img_height tile' < img_width tile + img_height tile.
Proof.
  intros Hw Hh Harea tile'.
  pose proof (shrink_side_bounds _ Hw) as Bw.
  pose proof (shrink_side_bounds _ Hh) as Bh.
  assert (Es : img_size tile' =
               (shrink_side (img_width tile), shrink_side (img_height tile))).
  { unfold tile'. apply size_resize; lia. }
  assert (Ew' : img_width tile' = shrink_side (img_width tile))
    by (unfold img_width at 1; now rewrite Es).
  assert (Eh' : img_height tile' = shrink_side (img_height tile))
    by (unfold img_height at 1; now rewrite Es).
  rewrite Ew', Eh'.
  repeat split; try lia.
  destruct (Z_lt_le_dec (img_width tile) 2) as [Hw1 | Hw2].
  - assert (img_width tile = 1) as Ew by lia.
    assert (2 <= img_height tile) as Hh2 by (rewrite Ew in Harea; lia).
    pose proof (shrink_side_lt _ Hh2). lia.
  - pose proof (shrink_side_lt _ Hw2). lia.
Qed.

(** The loop stops, within [width + height] rounds, on a tile that is the
    input or was obtained from it by shrinking, with its own encoding. *)
Lemma shrink_terminates (fuel : nat) :
  forall (tile : image) (jpg : list Byte.byte),
    1 <= img_width tile -> 1 <= img_height tile ->
    (Z.to_nat (img_width tile + img_height tile) <= fuel)%nat ->
    exists tile' jpg',
      shrink fuel tile jpg = Some (tile', jpg')
      /\ too_big tile' jpg' = false
      /\ 1 <= img_width tile' <= img_width tile
      /\ 1 <= img_height tile' <= img_height tile
      /\ ((tile' = tile /\ jpg' = jpg) \/ jpg' = jpg75_nonprog tile')
      /\ (too_big tile jpg = false -> tile' = tile /\ jpg' = jpg).
Proof.
  induction fuel as [ | fuel IH ]; intros tile jpg Hw Hh Hfuel.
  - lia.
  - rewrite shrink_unfold. destruct (too_big tile jpg) eqn:Hb.
    + apply too_big_area in Hb. destruct Hb as [_ Harea].
      destruct (shrink_round tile Hw Hh Harea) as (Bw & Bh & Hsum).
      cbv zeta.
      set (tile1 := resize tile
                      (shrink_side (img_width tile), shrink_side (img_height tile))) in *.
      destruct (IH tile1 (jpg75_nonprog tile1)) as (t & j & E & Hs & Hw' & Hh' & Hj & _);
        try lia.
      exists t, j. repeat split; try lia; try assumption.
      right. destruct Hj as [[-> ->] | ->]; reflexivity.
    + exists tile, jpg. repeat split; try lia; auto.
Qed.

End ShrinkFacts.


#[local] Instance size_only_laws : @ImagingLaws size_only.
Proof. split; intros; reflexivity. Qed.

Section ShrinkFuel.

Context `{IL : ImagingLaws}.

Lemma shrink_fuel_mono (fuel : nat) :
  forall (fuel' : nat) (tile : image) (jpg : list Byte.byte) r,
    (fuel <= fuel')%nat ->
    shrink fuel tile jpg = Some r -> shrink fuel' tile jpg = Some r.
Proof.
  induction fuel as [ | fuel IH ]; intros fuel' tile jpg r Hle E;
    rewrite shrink_unfold in E; rewrite shrink_unfold;
    destruct (too_big tile jpg); try exact E; try discriminate.
  destruct fuel' as [ | fuel' ]; [ lia | ].
  cbv zeta in *. apply (IH fuel'); [ lia | exact E ].
Qed.

End ShrinkFuel.

(** The guard of the loop on the small imaging library, where the encoding
    of an image has one byte per pixel. *)
Lemma too_big_px (w h : Z) :
  0 <= w * h ->
  too_big (px w h) (jpg75_nonprog (px w h))
  = (w * h >? MAX_BYTES) && (w * h >? 64 * 64).
Proof.
  intros Hwh. unfold too_big, len, jpg75_nonprog.
  change (save_jpeg (px w h) JPEG_QUALITY true false)
    with (repeat Byte.x00 (Z.to_nat (w * h))).
  rewrite repeat_length, Z2Nat.id by exact Hwh. reflexivity.
Qed.

(** Two rounds of the loop on a tile of 2000 x 2000 pixels: 1800 x 1800 is
    still over [MAX_BYTES], 1620 x 1620 is not. *)
Lemma shrink_px_2000 :
  shrink 2 (px 2000 2000) (jpg75_nonprog (px 2000 2000))
  = Some (px 1620 1620, jpg75_nonprog (px 1620 1620)).
Proof.
  rewrite shrink_unfold, too_big_px by lia.
  change ((2000 * 2000 >? MAX_BYTES) && (2000 * 2000 >? 64 * 64)) with true.
  cbv iota zeta.
  change (resize (px 2000 2000)
            (shrink_side (img_width (px 2000 2000)),
             shrink_side (img_height (px 2000 2000))))
    with (px 1800 1800).
  rewrite shrink_unfold, too_big_px by lia.
  change ((1800 * 1800 >? MAX_BYTES) && (1800 * 1800 >? 64 * 64)) with true.
  cbv iota zeta.
  change (resize (px 1800 1800)
            (shrink_side (img_width (px 1800 1800)),
             shrink_side (img_height (px 1800 1800))))
    with (px 1620 1620).
  rewrite shrink_unfold, too_big_px by lia.
  reflexivity.
Qed.

(** C4, as the code has it.  The loop always stops: for a tile of at least
    1x1 pixels, [width + height] rounds are enough, and any larger bound gives
    the same result.  The tile it stops on carries its own encoding, is at
    least 1x1 and no larger than the input, and either its encoding is within
    [MAX_BYTES] or its area is at most 64*64; a tile that does not pass the
    guard at the start is returned as it is. *)
Theorem shrink_loop_terminates `{IL : ImagingLaws} (tile : image) :
  1 <= img_width tile -> 1 <= img_height tile ->
  exists tile' jpg',
    (forall fuel, (shrink_fuel tile <= fuel)%nat ->
       shrink fuel tile (jpg75_nonprog tile) = Some (tile', jpg'))
    /\ jpg' = jpg75_nonprog tile'
    /\ (len jpg' <= MAX_BYTES \/ img_width tile' * img_height tile' <= 64 * 64)
    /\ 1 <= img_width tile' <= img_width tile
    /\ 1 <= img_height tile' <= img_height tile
    /\ (len (jpg75_nonprog tile) <= MAX_BYTES
        \/ img_width tile * img_height tile <= 64 * 64 -> tile' = tile).
Proof.
  intros Hw Hh.
  destruct (shrink_terminates (shrink_fuel tile) tile (jpg75_nonprog tile) Hw Hh)
    as (t & j & E & Hs & Bw & Bh & Hj & Hid); [ unfold shrink_fuel; lia | ].
  exists t, j. repeat split; try lia.
  - intros fuel Hfuel. now apply (shrink_fuel_mono (shrink_fuel tile)).
  - destruct Hj as [[-> ->] | ->]; reflexivity.
  - now apply too_big_false.
  - intros Hguard. apply Hid. unfold too_big.
    apply andb_false_iff. rewrite !Z.gtb_ltb, !Z.ltb_ge. tauto.
Qed.

Lemma shrink_loop_terminates_witness :
  too_big (px 2000 2000) (jpg75_nonprog (px 2000 2000)) = true
  /\ exists tile' jpg',
       (forall fuel, (shrink_fuel (px 2000 2000) <= fuel)%nat ->
          shrink fuel (px 2000 2000) (jpg75_nonprog (px 2000 2000))
          = Some (tile', jpg'))
       /\ jpg' = jpg75_nonprog tile'
       /\ tile' = px 1620 1620
       /\ len jpg' <= MAX_BYTES.
Proof.
  split; [ rewrite too_big_px by lia; reflexivity | ].
  destruct (shrink_loop_terminates (IL := size_only_laws) (px 2000 2000))
    as (t & j & E & Hj & _);
    [ change (img_width (px 2000 2000)) with 2000; lia
    | change (img_height (px 2000 2000)) with 2000; lia | ].
  pose proof (E (shrink_fuel (px 2000 2000)) (le_n _)) as E1.
  assert (Hfuel : (2 <= shrink_fuel (px 2000 2000))%nat)
    by (unfold shrink_fuel; change (img_width (px 2000 2000)) with 2000;
        change (img_height (px 2000 2000)) with 2000; lia).
  pose proof (@shrink_fuel_mono size_only 2 (shrink_fuel (px 2000 2000))
                _ _ _ Hfuel shrink_px_2000) as E2.
  rewrite E1 in E2.
  assert (Et : t = px 1620 1620) by congruence.
  assert (Ej : j = jpg75_nonprog (px 1620 1620)) by congruence.
  exists t, j.
  split; [ exact E | ]. split; [ exact Hj | ]. split; [ exact Et | ].
  rewrite Ej. unfold len, jpg75_nonprog.
  change (save_jpeg (px 1620 1620) JPEG_QUALITY true false)
    with (repeat Byte.x00 (Z.to_nat (1620 * 1620))).
  rewrite repeat_length, Z2Nat.id by lia. unfold MAX_BYTES. lia.
Defined.

(** C4 as stated fails on its second half: a tile of 10x10 pixels does not
    pass the guard of the loop and is returned as it is, smaller than 64x64. *)
Lemma shrink_floor_counterexample :
  exists jpg',
    shrink (shrink_fuel (px 10 10)) (px 10 10) (jpg75_nonprog (px 10 10))
    = Some (px 10 10, jpg')
    /\ img_width (px 10 10) < 64
    /\ img_height (px 10 10) < 64
    /\ img_width (px 10 10) * img_height (px 10 10) < 64 * 64.
Proof.
  eexists. split; [ vm_compute; reflexivity | ].
  repeat split; vm_compute; reflexivity.
Qed.


(* ================================================================== *)
(** * The 1 MP step: the real-number reading and its integer form *)
(* ================================================================== *)

Lemma mp_ratio_pos (tw th : Z) :
  (0 < IZR MAX_PIXELS / IZR (Z.max 1 (tw * th)))%R.
Proof.
  apply Rdiv_lt_0_compat; apply IZR_lt; unfold MAX_PIXELS; lia.
Qed.

(** [scale_mp < 1.0] holds exactly when the tile has more than [MAX_PIXELS]
    pixels. *)
Lemma scale_mp_lt_1 (tw th : Z) :
  (scale_mp tw th < 1)%R <-> mp_over tw th = true.
Proof.
  unfold scale_mp, mp_over. rewrite Z.ltb_lt.
  set (A := Z.max 1 (tw * th)).
  assert (HA : (0 < IZR A)%R) by (apply IZR_lt; unfold A; lia).
  pose proof (mp_ratio_pos tw th) as Hq. fold A in Hq.
  split.
  - intros Hlt.
    destruct (Z_lt_le_dec MAX_PIXELS A) as [ | Hle ]; [ assumption | exfalso ].
    assert (H1 : (1 <= IZR MAX_PIXELS / IZR A)%R).
    { apply IZR_le in Hle.
      apply (Rmult_le_reg_r (IZR A)); [ exact HA | ].
      unfold Rdiv. rewrite Rmult_assoc, Rinv_l by Lra.lra. Lra.lra. }
    assert (H2 : (1 <= sqrt (IZR MAX_PIXELS / IZR A))%R).
    { rewrite <- sqrt_1 at 1. apply sqrt_le_1_alt. exact H1. }
    unfold Rmin in Hlt. destruct (Rle_dec 1 _); Lra.lra.
  - intros Hlt. apply IZR_lt in Hlt.
    assert (H1 : (IZR MAX_PIXELS / IZR A < 1)%R).
    { apply (Rmult_lt_reg_r (IZR A)); [ exact HA | ].
      unfold Rdiv. rewrite Rmult_assoc, Rinv_l by Lra.lra. Lra.lra. }
    assert (H2 : (sqrt (IZR MAX_PIXELS / IZR A) < 1)%R).
    { rewrite <- sqrt_1. apply sqrt_lt_1_alt. split; Lra.lra. }
    unfold Rmin. destruct (Rle_dec 1 _); Lra.lra.
Qed.

Lemma scale_mp_over (tw th : Z) :
  mp_over tw th = true ->
  scale_mp tw th = sqrt (IZR MAX_PIXELS / IZR (Z.max 1 (tw * th))).
Proof.
  intros Ho. apply scale_mp_lt_1 in Ho. unfold scale_mp in *.
  unfold Rmin in *. destruct (Rle_dec 1 _); [ Lra.lra | reflexivity ].
Qed.

(** [int(d * scale_mp)], with the square root taken over the reals, is the
    integer square root of the integer quotient [d*d*MAX_PIXELS / (tw*th)]. *)
Lemma mp_side_spec (d tw th : Z) :
  0 <= d -> mp_over tw th = true ->
  Int_part (IZR d * scale_mp tw th) = mp_side d tw th.
Proof.
  intros Hd Ho. rewrite (scale_mp_over tw th Ho). unfold mp_side.
  set (A := Z.max 1 (tw * th)).
  set (q := d * d * MAX_PIXELS / A).
  set (k := Z.sqrt q).
  assert (HA : 0 < A) by (unfold A; lia).
  assert (HAr : (0 < IZR A)%R) by (apply IZR_lt; exact HA).
  assert (Hq0 : 0 <= q).
  { unfold q. apply Z.div_pos; [ unfold MAX_PIXELS; nia | exact HA ]. }
  pose proof (Z.sqrt_spec q Hq0) as Hk. fold k in Hk. cbv zeta in Hk.
  assert (Hk0 : 0 <= k) by (unfold k; apply Z.sqrt_nonneg).
  pose proof (Z.div_mod (d * d * MAX_PIXELS) A ltac:(lia)) as Hdm. fold q in Hdm.
  pose proof (Z.mod_pos_bound (d * d * MAX_PIXELS) A HA) as Hmb.
  set (s := sqrt (IZR MAX_PIXELS / IZR A)).
  set (x := (IZR d * s)%R).
  pose proof (mp_ratio_pos tw th) as Hratio. fold A in Hratio.
  assert (Hs0 : (0 <= s)%R) by apply sqrt_pos.
  assert (Hx0 : (0 <= x)%R).
  { unfold x. apply Rmult_le_pos; [ apply IZR_le; exact Hd | exact Hs0 ]. }
  assert (Hss : (s * s = IZR MAX_PIXELS / IZR A)%R)
    by (unfold s; apply sqrt_sqrt; Lra.lra).
  assert (Hxx : (x * x * IZR A = IZR (d * d * MAX_PIXELS))%R).
  { unfold x. rewrite !mult_IZR.
    replace (IZR d * s * (IZR d * s) * IZR A)%R
      with (IZR d * IZR d * (s * s) * IZR A)%R by ring.
    rewrite Hss. field. Lra.lra. }
  (* k*k <= x*x < (k+1)*(k+1) *)
  assert (Hlo : (IZR k * IZR k <= x * x)%R).
  { apply (Rmult_le_reg_r (IZR A)); [ exact HAr | ].
    rewrite Hxx, <- !mult_IZR. apply IZR_le. nia. }
  assert (Hhi : (x * x < (IZR k + 1) * (IZR k + 1))%R).
  { apply (Rmult_lt_reg_r (IZR A)); [ exact HAr | ].
    rewrite Hxx. replace (IZR k + 1)%R with (IZR (k + 1)) by (rewrite plus_IZR; reflexivity).
    rewrite <- !mult_IZR. apply IZR_lt. nia. }
  assert (Hk0r : (0 <= IZR k)%R) by (apply IZR_le; exact Hk0).
  symmetry. apply Int_part_spec. split.
  - (* x - 1 < k *)
    destruct (Rlt_le_dec (x - 1) (IZR k)) as [ | Hge ]; [ assumption | exfalso ].
    assert ((IZR k + 1) * (IZR k + 1) <= x * x)%R.
    { apply Rmult_le_compat; Lra.lra. }
    Lra.lra.
  - (* k <= x *)
    destruct (Rle_lt_dec (IZR k) x) as [ | Hlt ]; [ assumption | exfalso ].
    assert (x * x < IZR k * IZR k)%R.
    { apply Rmult_le_0_lt_compat; Lra.lra. }
    Lra.lra.
Qed.


(* ================================================================== *)
(** * The grid of [processAlgorithm]: tiles of at most TILE_SIDE pixels *)
(* ================================================================== *)

Lemma degenerate_false (x0 y0 x1 y1 : Z) :
  degenerate (x0, y0, x1, y1) = false <-> x0 < x1 /\ y0 < y1.
Proof.
  unfold degenerate. rewrite orb_false_iff, !Z.geb_leb, !Z.leb_gt. tauto.
Qed.

(** With [cols = ceil(newW / TILE_SIDE)] and [tile_w = ceil(newW / cols)]
    every column starts inside the image and is at most [TILE_SIDE] wide. *)
Lemma grid_column (n c : Z) :
  1 <= n ->
  let cols := ceil_div n TILE_SIDE in
  let tile_w := ceil_div n cols in
  0 <= c < cols ->
  1 <= cols /\ 1 <= tile_w <= TILE_SIDE
  /\ c * tile_w < n
  /\ 1 <= Z.min n (c * tile_w + tile_w) - c * tile_w <= TILE_SIDE.
Proof.
  intros Hn cols tile_w Hc. pose proof TILE_SIDE_eq as ETS.
  pose proof (ceil_div_spec n TILE_SIDE ltac:(lia)) as Hcols. fold cols in Hcols.
  assert (Hcols1 : 1 <= cols) by lia.
  pose proof (ceil_div_spec n cols ltac:(lia)) as Htw. fold tile_w in Htw.
  assert (Htw1 : 1 <= tile_w) by nia.
  assert (Htw2 : tile_w <= TILE_SIDE).
  { unfold tile_w. apply ceil_div_le; lia. }
  assert (Hx0 : c * tile_w < n) by nia.
  repeat split; try lia.
Qed.

(** C10.  For a resampled image of [newW] x [newH] pixels, with the grid
    [cols = ceil(newW/TILE_SIDE)], [rows = ceil(newH/TILE_SIDE)] and the tile
    size [tile_w = ceil(newW/cols)], [tile_h = ceil(newH/rows)], every tile
    of the grid is cropped (none is degenerate), is at most [TILE_SIDE] wide
    and high, so has at most [MAX_PIXELS] pixels; [scale_mp < 1.0] is false
    for it and the 1 MP step leaves the crop as it is. *)
Theorem tiles_within_limits (newW newH r c : Z) :
  1 <= newW -> 1 <= newH ->
  let cols := ceil_div newW TILE_SIDE in
  let rows := ceil_div newH TILE_SIDE in
  let tile_w := ceil_div newW cols in
  let tile_h := ceil_div newH rows in
  0 <= r < rows -> 0 <= c < cols ->
  let box := tile_box newW newH tile_w tile_h r c in
  degenerate box = false
  /\ 1 <= box_width box <= TILE_SIDE
  /\ 1 <= box_height box <= TILE_SIDE
  /\ box_width box * box_height box <= MAX_PIXELS
  /\ TILE_SIDE * TILE_SIDE = MAX_PIXELS
  /\ ~ (scale_mp (box_width box) (box_height box) < 1)%R
  /\ (forall (I : Imaging) (IL : ImagingLaws) (base_img : image),
        enforce_mp (crop base_img box) = crop base_img box).
Proof.
  intros HW HH cols rows tile_w tile_h Hr Hc box.
  destruct (grid_column newW c HW Hc) as (_ & _ & Hx & Hwd).
  destruct (grid_column newH r HH Hr) as (_ & _ & Hy & Hht).
  fold cols tile_w in Hx, Hwd. fold rows tile_h in Hy, Hht.
  unfold box, tile_box. cbv zeta. cbn [box_width box_height].
  pose proof TILE_SIDE_eq as ETS.
  assert (Hnd : degenerate
                  (c * tile_w, r * tile_h, Z.min newW (c * tile_w + tile_w),
                   Z.min newH (r * tile_h + tile_h)) = false)
    by (apply degenerate_false; lia).
  assert (Harea : (Z.min newW (c * tile_w + tile_w) - c * tile_w)
                  * (Z.min newH (r * tile_h + tile_h) - r * tile_h) <= MAX_PIXELS)
    by (unfold MAX_PIXELS; nia).
  assert (Hover : mp_over (Z.min newW (c * tile_w + tile_w) - c * tile_w)
                    (Z.min newH (r * tile_h + tile_h) - r * tile_h) = false).
  { unfold mp_over. apply Z.ltb_ge. unfold MAX_PIXELS in *. lia. }
  repeat split; try lia; try assumption.
  - intros Hlt. apply scale_mp_lt_1 in Hlt. congruence.
  - intros I IL base_img. unfold enforce_mp.
    rewrite size_crop by lia. now rewrite Hover.
Qed.

Lemma tiles_within_limits_witness :
  degenerate (tile_box 4000 3000 (ceil_div 4000 (ceil_div 4000 TILE_SIDE))
                (ceil_div 3000 (ceil_div 3000 TILE_SIDE)) 2 3) = false.
Proof.
  apply (tiles_within_limits 4000 3000 2 3); vm_compute; repeat split; discriminate || reflexivity.
Defined.


(* ================================================================== *)
(** * The tiling loop in scan order *)
(* ================================================================== *)

Section LoopFacts.

Context `{IL : ImagingLaws}.

(** The limits on one tile always give a result. *)
Lemma enforce_total (tile : image) :
  1 <= img_width tile -> 1 <= img_height tile ->
  exists t j,
    enforce tile = Some (t, j)
    /\ j = jpg75_nonprog t
    /\ (len j <= MAX_BYTES \/ img_width t * img_height t <= 64 * 64)
    /\ 1 <= img_width t /\ 1 <= img_height t
    /\ (mp_over (img_width tile) (img_height tile) = false ->
        img_width t <= img_width tile /\ img_height t <= img_height tile).
Proof.
  intros Hw Hh. unfold enforce.
  set (tile1 := enforce_mp tile).
  assert (H1 : 1 <= img_width tile1 /\ 1 <= img_height tile1
               /\ (mp_over (img_width tile) (img_height tile) = false -> tile1 = tile)).
  { unfold tile1, enforce_mp.
    destruct (img_size tile) as [tw th] eqn:Es.
    assert (img_width tile = tw) as Ew by (unfold img_width; now rewrite Es).
    assert (img_height tile = th) as Eh by (unfold img_height; now rewrite Es).
    rewrite Ew, Eh. destruct (mp_over tw th).
    - unfold img_width, img_height. rewrite size_resize by lia.
      cbn [fst snd]. repeat split; try lia; try discriminate.
    - repeat split; try lia. }
  destruct H1 as (Hw1 & Hh1 & Hid).
  destruct (shrink_terminates (shrink_fuel tile1) tile1 (jpg75_nonprog tile1) Hw1 Hh1)
    as (t & j & E & Hs & Bw & Bh & Hj & _); [ unfold shrink_fuel; lia | ].
  exists t, j. repeat split; try lia; try assumption.
  - destruct Hj as [[-> ->] | ->]; reflexivity.
  - now apply too_big_false.
  - rewrite <- (Hid H0). lia.
  - rewrite <- (Hid H0). lia.
Qed.

Variables (base_img : image) (ext : extent) (tile_w tile_h : Z).

(** One pass of the loop body: the counter goes up by one and the overlay
    of the cell, if it has one, is appended. *)
Lemma tile_step_spec (r c idx : Z) (overlays : list overlay) :
  tile_step base_img ext tile_w tile_h r c (idx, overlays)
  = Done (idx + 1, overlays ++ cell_overlay base_img ext tile_w tile_h idx (r, c)).
Proof.
  unfold tile_step, cell_overlay. cbn [fst snd]. cbv zeta.
  destruct (tile_box (img_width base_img) (img_height base_img) tile_w tile_h r c)
    as [[[x0 y0] x1] y1] eqn:Eb.
  destruct (degenerate (x0, y0, x1, y1)) eqn:Ed.
  - now rewrite app_nil_r.
  - apply degenerate_false in Ed.
    destruct (enforce_total (crop base_img (x0, y0, x1, y1))) as (t & j & E & _).
    + unfold img_width. rewrite size_crop by lia. cbn [fst]. lia.
    + unfold img_height. rewrite size_crop by lia. cbn [snd]. lia.
    + rewrite E. reflexivity.
Qed.

(** The inner loop over a stretch of columns of row [r]. *)
Lemma row_loop_spec (r cols : Z) (n : nat) :
  forall (start : nat) (overlays : list overlay),
    for_each (map Z.of_nat (seq start n))
      (tile_step base_img ext tile_w tile_h r)
      (r * cols + Z.of_nat start, overlays)
    = Done (r * cols + Z.of_nat (start + n),
            overlays ++
            flat_map (fun c => cell_overlay base_img ext tile_w tile_h (r * cols + c) (r, c))
              (map Z.of_nat (seq start n))).
Proof.
  induction n as [ | n IH ]; intros start overlays.
  - cbn [seq map for_each flat_map]. rewrite app_nil_r, Nat.add_0_r. reflexivity.
  - cbn [seq map for_each flat_map]. rewrite tile_step_spec. cbn [bind].
    replace (r * cols + Z.of_nat start + 1) with (r * cols + Z.of_nat (S start)) by lia.
    rewrite IH, <- app_assoc.
    replace (S start + n)%nat with (start + S n)%nat by lia. reflexivity.
Qed.

(** The outer loop over a stretch of rows. *)
Lemma rows_loop_spec (cols : Z) (n : nat) :
  0 <= cols ->
  forall (start : nat) (overlays : list overlay),
    for_each (map Z.of_nat (seq start n))
      (fun r => for_each (range cols) (tile_step base_img ext tile_w tile_h r))
      (Z.of_nat start * cols, overlays)
    = Done (Z.of_nat (start + n) * cols,
            overlays ++
            flat_map
              (fun r =>
                 flat_map
                   (fun c => cell_overlay base_img ext tile_w tile_h (r * cols + c) (r, c))
                   (range cols))
              (map Z.of_nat (seq start n))).
Proof.
  intros Hcols. induction n as [ | n IH ]; intros start overlays.
  - cbn [seq map for_each flat_map]. rewrite app_nil_r, Nat.add_0_r. reflexivity.
  - cbn [seq map for_each flat_map]. unfold range at 1.
    pose proof (row_loop_spec (Z.of_nat start) cols (Z.to_nat cols) 0 overlays) as Hrow.
    replace (Z.of_nat start * cols + Z.of_nat 0) with (Z.of_nat start * cols) in Hrow by lia.
    rewrite Hrow. cbn [bind].
    replace (Z.of_nat start * cols + Z.of_nat (0 + Z.to_nat cols))
      with (Z.of_nat (S start) * cols) by lia.
    rewrite IH, <- app_assoc.
    replace (S start + n)%nat with (start + S n)%nat by lia. reflexivity.
Qed.

End LoopFacts.


Lemma flat_map_map {A B C : Type} (f : B -> list C) (g : A -> B) (l : list A) :
  flat_map f (map g l) = flat_map (fun x => f (g x)) l.
Proof. induction l as [ | x l IH ]; simpl; [ | rewrite IH ]; reflexivity. Qed.

Lemma flat_map_flat_map {A B C : Type} (f : B -> list C) (g : A -> list B) (l : list A) :
  flat_map f (flat_map g l) = flat_map (fun x => flat_map f (g x)) l.
Proof.
  induction l as [ | x l IH ]; simpl; [ reflexivity | ].
  now rewrite flat_map_app, IH.
Qed.

Lemma in_range (n x : Z) : In x (range n) <-> 0 <= x < n.
Proof.
  unfold range. rewrite in_map_iff. split.
  - intros (k & <- & Hk). apply in_seq in Hk. lia.
  - intros Hx. exists (Z.to_nat x). split; [ lia | ]. apply in_seq. lia.
Qed.

Lemma in_cells (cols rows r c : Z) :
  In (r, c) (cells cols rows) <-> 0 <= r < rows /\ 0 <= c < cols.
Proof.
  unfold cells. rewrite in_flat_map. split.
  - intros (r' & Hr & Hin). apply in_map_iff in Hin.
    destruct Hin as (c' & E & Hc). inversion E; subst.
    apply in_range in Hr. apply in_range in Hc. tauto.
  - intros [Hr Hc]. exists r. split; [ now apply in_range | ].
    apply in_map_iff. exists c. split; [ reflexivity | now apply in_range ].
Qed.

Section ScanOrder.

Context `{IL : ImagingLaws}.

Variables (base_img : image) (ext : extent).

(** The loop returns, for the cells in scan order, the overlay of every cell
    that is not degenerate, the cell [(r, c)] under the counter
    [r * cols + c]. *)
Lemma tiles_loop_scan (cols rows : Z) :
  1 <= cols -> 1 <= rows ->
  tiles_loop base_img ext cols rows
  = Done (flat_map
            (fun rc =>
               cell_overlay base_img ext
                 (ceil_div (img_width base_img) cols)
                 (ceil_div (img_height base_img) rows)
                 (fst rc * cols + snd rc) rc)
            (cells cols rows)).
Proof.
  intros Hc Hr. unfold tiles_loop.
  assert (E0 : (cols =? 0) || (rows =? 0) = false).
  { apply orb_false_iff. split; apply Z.eqb_neq; lia. }
  rewrite E0. cbv zeta. unfold range at 1.
  pose proof (rows_loop_spec base_img ext
                (ceil_div (img_width base_img) cols)
                (ceil_div (img_height base_img) rows)
                cols (Z.to_nat rows) ltac:(lia) 0 []) as Hloop.
  change (Z.of_nat 0 * cols) with 0 in Hloop.
  rewrite Hloop. cbn [bind snd app]. f_equal.
  unfold cells. rewrite flat_map_flat_map. fold (range rows).
  apply flat_map_ext. intros r. now rewrite flat_map_map.
Qed.

(** The overlay of a cell that is not degenerate. *)
Lemma cell_overlay_live (tile_w tile_h idx r c : Z) :
  let width := img_width base_img in
  let height := img_height base_img in
  let box := tile_box width height tile_w tile_h r c in
  degenerate box = false ->
  exists t,
    enforce (crop base_img box) = Some (t, jpg75_nonprog t)
    /\ cell_overlay base_img ext tile_w tile_h idx (r, c)
       = [mk_overlay (image_name idx) (jpg75_nonprog t)
            (lon_at ext width (c * tile_w))
            (lon_at ext width (Z.min width (c * tile_w + tile_w)))
            (lat_at ext height (Z.min height (r * tile_h + tile_h)))
            (lat_at ext height (r * tile_h))]
    /\ (len (jpg75_nonprog t) <= MAX_BYTES \/ img_width t * img_height t <= 64 * 64)
    /\ 1 <= img_width t /\ 1 <= img_height t
    /\ (mp_over (box_width box) (box_height box) = false ->
        img_width t <= box_width box /\ img_height t <= box_height box).
Proof.
  intros width height box Hd.
  unfold cell_overlay. cbn [fst snd]. cbv zeta. fold width height box.
  rewrite Hd. unfold box in *. unfold tile_box in *. cbv zeta in *.
  apply degenerate_false in Hd.
  set (x0 := c * tile_w) in *. set (y0 := r * tile_h) in *.
  set (x1 := Z.min width (x0 + tile_w)) in *.
  set (y1 := Z.min height (y0 + tile_h)) in *.
  assert (Es : img_size (crop base_img (x0, y0, x1, y1)) = (x1 - x0, y1 - y0))
    by (apply size_crop; lia).
  destruct (enforce_total (crop base_img (x0, y0, x1, y1)))
    as (t & j & E & -> & Hcap & Hw & Hh & Hle).
  - unfold img_width. rewrite Es. cbn [fst]. lia.
  - unfold img_height. rewrite Es. cbn [snd]. lia.
  - assert (Ew : img_width (crop base_img (x0, y0, x1, y1)) = x1 - x0)
      by (unfold img_width; now rewrite Es).
    assert (Eh : img_height (crop base_img (x0, y0, x1, y1)) = y1 - y0)
      by (unfold img_height; now rewrite Es).
    rewrite Ew, Eh in Hle. cbn [box_width box_height].
    exists t. rewrite E. repeat split; try assumption; now apply Hle.
Qed.

Lemma cell_overlay_dead (tile_w tile_h idx r c : Z) :
  degenerate (tile_box (img_width base_img) (img_height base_img) tile_w tile_h r c)
  = true ->
  cell_overlay base_img ext tile_w tile_h idx (r, c) = [].
Proof. intros Hd. unfold cell_overlay. cbn [fst snd]. cbv zeta. now rewrite Hd. Qed.

(** The names of the overlays follow the cells that are kept. *)
Lemma scan_names (tile_w tile_h cols : Z) (cs : list (Z * Z)) :
  map fname
    (flat_map (fun rc => cell_overlay base_img ext tile_w tile_h
                           (fst rc * cols + snd rc) rc) cs)
  = map (fun rc => image_name (fst rc * cols + snd rc))
      (filter (live (img_width base_img) (img_height base_img) tile_w tile_h) cs).
Proof.
  induction cs as [ | [r c] cs IH ]; [ reflexivity | ].
  cbn [flat_map filter]. rewrite map_app, IH.
  assert (Hl : live (img_width base_img) (img_height base_img) tile_w tile_h (r, c)
               = negb (degenerate (tile_box (img_width base_img) (img_height base_img)
                                     tile_w tile_h r c))) by reflexivity.
  rewrite Hl. cbn [fst snd].
  destruct (degenerate (tile_box (img_width base_img) (img_height base_img)
                          tile_w tile_h r c)) eqn:Hd.
  - rewrite (cell_overlay_dead _ _ _ _ _ Hd). reflexivity.
  - destruct (cell_overlay_live tile_w tile_h (r * cols + c) r c Hd) as (t & _ & -> & _).
    reflexivity.
Qed.

End ScanOrder.


(* ================================================================== *)
(** * The names of the archive entries *)
(* ================================================================== *)

(** Below 1000 the format [03d] gives exactly three digits. *)
Lemma format_03d_three_digits (idx : Z) :
  0 <= idx < 1000 -> format_03d idx = three_digits idx.
Proof.
  intros Hidx.
  assert (Hall : forallb (fun n => String.eqb (format_03d n) (three_digits n))
                   (range 1000) = true) by (vm_compute; reflexivity).
  rewrite forallb_forall in Hall.
  apply String.eqb_eq. apply Hall. now apply in_range.
Qed.

(** From 1000 on the number takes the digits it needs. *)
Example image_name_1000 : image_name 1000 = "image_1000.jpg"%string.
Proof. reflexivity. Qed.

(* ================================================================== *)
(** * The caps on the stored tiles *)
(* ================================================================== *)

(** C5.  In an export of a resampled image of [newW] x [newH] pixels, with
    the grid of [processAlgorithm], the loop ends and every overlay it stores
    is the encoding of the tile the limits ended on, for one cell of the
    grid; that tile has at most [MAX_PIXELS] pixels, and if its area is
    above 64*64 its encoding has at most [MAX_BYTES] bytes. *)
Theorem stored_tiles_within_caps `{IL : ImagingLaws}
  (base_img : image) (ext : extent) (newW newH : Z) :
  img_size base_img = (newW, newH) ->
  1 <= newW -> 1 <= newH ->
  let cols := ceil_div newW TILE_SIDE in
  let rows := ceil_div newH TILE_SIDE in
  let tile_w := ceil_div newW cols in
  let tile_h := ceil_div newH rows in
  exists overlays,
    tiles_loop base_img ext cols rows = Done overlays
    /\ forall o, In o overlays ->
         exists r c t,
           0 <= r < rows /\ 0 <= c < cols
           /\ fname o = image_name (r * cols + c)
           /\ enforce (crop base_img (tile_box newW newH tile_w tile_h r c))
              = Some (t, data o)
           /\ data o = jpg75_nonprog t
           /\ img_width t * img_height t <= MAX_PIXELS
           /\ (64 * 64 < img_width t * img_height t -> len (data o) <= MAX_BYTES).
Proof.
  intros Es HW HH cols rows tile_w tile_h.
  assert (Ew : img_width base_img = newW) by (unfold img_width; now rewrite Es).
  assert (Eh : img_height base_img = newH) by (unfold img_height; now rewrite Es).
  destruct (grid_column newW 0 HW) as (Hcols & _);
    [ pose proof (ceil_div_pos newW TILE_SIDE); rewrite TILE_SIDE_eq in *; lia | ].
  destruct (grid_column newH 0 HH) as (Hrows & _);
    [ pose proof (ceil_div_pos newH TILE_SIDE); rewrite TILE_SIDE_eq in *; lia | ].
  fold cols in Hcols. fold rows in Hrows.
  eexists. split; [ apply tiles_loop_scan; assumption | ].
  intros o Hin. apply in_flat_map in Hin. destruct Hin as ([r c] & Hcell & Ho).
  apply in_cells in Hcell. destruct Hcell as [Hr Hc]. cbn [fst snd] in Ho.
  rewrite Ew, Eh in Ho. fold cols rows tile_w tile_h in Ho.
  destruct (grid_column newW c HW Hc) as (_ & _ & Hx & Hwd).
  destruct (grid_column newH r HH Hr) as (_ & _ & Hy & Hht).
  fold cols tile_w in Hx, Hwd. fold rows tile_h in Hy, Hht.
  pose proof TILE_SIDE_eq as ETS.
  assert (Hnd : degenerate (tile_box newW newH tile_w tile_h r c) = false)
    by (unfold tile_box; apply degenerate_false; lia).
  pose proof (cell_overlay_live base_img ext tile_w tile_h (r * cols + c) r c) as Hlive.
  cbv zeta in Hlive. rewrite Ew, Eh in Hlive.
  destruct (Hlive Hnd) as (t & Henf & Hov & Hcap & Hw1 & Hh1 & Hle).
  rewrite Hov in Ho. destruct Ho as [<- | []]. cbn [fname data].
  unfold tile_box in Hle. cbn [box_width box_height] in Hle.
  assert (Hover : mp_over (Z.min newW (c * tile_w + tile_w) - c * tile_w)
                    (Z.min newH (r * tile_h + tile_h) - r * tile_h) = false).
  { unfold mp_over. apply Z.ltb_ge. unfold MAX_PIXELS. nia. }
  destruct (Hle Hover) as [Hwt Hht'].
  exists r, c, t.
  split; [ exact Hr | ]. split; [ exact Hc | ].
  split; [ reflexivity | ]. split; [ exact Henf | ].
  split; [ reflexivity | ]. split.
  - unfold MAX_PIXELS. nia.
  - intros Hbig. destruct Hcap as [ Hlen | Hsmall ]; [ exact Hlen | lia ].
Qed.

Lemma stored_tiles_within_caps_witness :
  exists overlays,
    tiles_loop (px 2500 1200) sample_extent
      (ceil_div 2500 TILE_SIDE) (ceil_div 1200 TILE_SIDE) = Done overlays
    /\ forall o, In o overlays ->
         exists t, data o = jpg75_nonprog t
           /\ img_width t * img_height t <= MAX_PIXELS
           /\ (64 * 64 < img_width t * img_height t -> len (data o) <= MAX_BYTES).
Proof.
  destruct (stored_tiles_within_caps (IL := size_only_laws)
              (px 2500 1200) sample_extent 2500 1200)
    as (overlays & E & Hall); [ reflexivity | lia | lia | ].
  exists overlays. split; [ exact E | ].
  intros o Ho. destruct (Hall o Ho) as (r & c & t & _ & _ & _ & _ & Hd & Hp & Hb).
  exists t. split; [ exact Hd | ]. split; [ exact Hp | exact Hb ].
Defined.


(* ================================================================== *)
(** * The geographic boxes of the tiles *)
(* ================================================================== *)

Lemma axis_next (n k t c : Z) :
  axis_ok n k t -> 0 <= c -> c + 1 < k -> Z.min n (c * t + t) = (c + 1) * t.
Proof. intros (Hk & Ht & Hlast & Hn) Hc Hc1. nia. Qed.

Lemma axis_last (n k t : Z) :
  axis_ok n k t -> Z.min n ((k - 1) * t + t) = n.
Proof. intros (Hk & Ht & Hlast & Hn). nia. Qed.

Lemma axis_start (n k t c : Z) :
  axis_ok n k t -> 0 <= c < k -> 0 <= c * t < Z.min n (c * t + t).
Proof. intros (Hk & Ht & Hlast & Hn) Hc. nia. Qed.

Lemma axis_locate (n k t x : Z) :
  axis_ok n k t -> 0 <= x < n ->
  0 <= x / t < k /\ x / t * t <= x < Z.min n (x / t * t + t).
Proof.
  intros (Hk & Ht & Hlast & Hn) Hx.
  pose proof (Z.div_mod x t ltac:(lia)) as E.
  pose proof (Z.mod_pos_bound x t ltac:(lia)) as B.
  assert (0 <= x / t) by (apply Z.div_pos; lia).
  assert (x / t < k) by (apply Z.div_lt_upper_bound; nia).
  nia.
Qed.

Lemma axis_unique (n k t x c : Z) :
  axis_ok n k t -> c * t <= x < Z.min n (c * t + t) -> c = x / t.
Proof.
  intros (Hk & Ht & Hlast & Hn) Hx.
  apply (Z.div_unique_pos x t c (x - c * t)); lia.
Qed.

(** A grid whose cells are all live is regular on both axes. *)
Lemma live_grid (width height cols rows : Z) :
  1 <= cols -> 1 <= rows ->
  forallb (live width height (ceil_div width cols) (ceil_div height rows))
    (cells cols rows) = true ->
  axis_ok width cols (ceil_div width cols)
  /\ axis_ok height rows (ceil_div height rows).
Proof.
  intros Hc Hr Hall. rewrite forallb_forall in Hall.
  assert (Hcell : forall r c, 0 <= r < rows -> 0 <= c < cols ->
            c * ceil_div width cols
              < Z.min width (c * ceil_div width cols + ceil_div width cols)
            /\ r * ceil_div height rows
              < Z.min height (r * ceil_div height rows + ceil_div height rows)).
  { intros r c Hr' Hc'.
    specialize (Hall (r, c) (proj2 (in_cells cols rows r c) (conj Hr' Hc'))).
    unfold live in Hall. apply negb_true_iff in Hall. cbn [fst snd] in Hall.
    unfold tile_box in Hall. now apply degenerate_false in Hall. }
  pose proof (Hcell 0 0 ltac:(lia) ltac:(lia)) as [Hx0 Hy0].
  pose proof (Hcell (rows - 1) (cols - 1) ltac:(lia) ltac:(lia)) as [Hx1 Hy1].
  pose proof (ceil_div_spec width cols ltac:(lia)) as Hw.
  pose proof (ceil_div_spec height rows ltac:(lia)) as Hh.
  unfold axis_ok. repeat split; lia.
Qed.

(** The grid of [processAlgorithm] is regular. *)
Lemma plan_grid (n : Z) :
  1 <= n ->
  axis_ok n (ceil_div n TILE_SIDE) (ceil_div n (ceil_div n TILE_SIDE)).
Proof.
  intros Hn. pose proof TILE_SIDE_eq as ETS.
  pose proof (ceil_div_spec n TILE_SIDE ltac:(lia)) as Hk.
  assert (Hk1 : 1 <= ceil_div n TILE_SIDE) by lia.
  destruct (grid_column n (ceil_div n TILE_SIDE - 1) Hn ltac:(lia))
    as (_ & Ht & Hlast & _).
  pose proof (ceil_div_spec n (ceil_div n TILE_SIDE) ltac:(lia)) as Hw.
  unfold axis_ok. repeat split; lia.
Qed.

(** The edges of [tile_geo], one by one. *)
Lemma tile_geo_edges (ext : extent) (width height tile_w tile_h r c : Z) :
  let g := tile_geo ext width height tile_w tile_h r c in
  g_west g = lon_at ext width (c * tile_w)
  /\ g_east g = lon_at ext width (Z.min width (c * tile_w + tile_w))
  /\ g_north g = lat_at ext height (r * tile_h)
  /\ g_south g = lat_at ext height (Z.min height (r * tile_h + tile_h)).
Proof. repeat split. Qed.

(** A point on a chain of edges lies between two neighbours. *)
Lemma chain_locate (f : Z -> Q) (n : nat) (x : Q) :
  (f 0%Z <= x)%Q -> (x < f (Z.of_nat n))%Q ->
  exists c, 0 <= c < Z.of_nat n /\ (f c <= x)%Q /\ (x < f (c + 1)%Z)%Q.
Proof.
  induction n as [ | n IH ]; intros H0 Hn.
  - simpl in Hn. exfalso. Lqa.lra.
  - destruct (Qlt_le_dec x (f (Z.of_nat n))) as [Hlt | Hge].
    + destruct (IH H0 Hlt) as (c & Hc & Hlo & Hhi).
      exists c. repeat split; try assumption; lia.
    + exists (Z.of_nat n). repeat split; try assumption; try lia.
      replace (Z.of_nat n + 1) with (Z.of_nat (S n)) by lia. exact Hn.
Qed.

(** The boxes of the overlays the loop stores, for any list of cells. *)
Lemma scan_boxes `{IL : ImagingLaws} (base_img : image) (ext : extent)
  (tile_w tile_h cols : Z) (cs : list (Z * Z)) :
  map box_of
    (flat_map (fun rc => cell_overlay base_img ext tile_w tile_h
                           (fst rc * cols + snd rc) rc) cs)
  = map (fun rc => tile_geo ext (img_width base_img) (img_height base_img)
                     tile_w tile_h (fst rc) (snd rc))
      (filter (live (img_width base_img) (img_height base_img) tile_w tile_h) cs).
Proof.
  induction cs as [ | [r c] cs IH ]; [ reflexivity | ].
  cbn [flat_map filter]. rewrite map_app, IH.
  assert (Hl : live (img_width base_img) (img_height base_img) tile_w tile_h (r, c)
               = negb (degenerate (tile_box (img_width base_img) (img_height base_img)
                                     tile_w tile_h r c))) by reflexivity.
  rewrite Hl. cbn [fst snd].
  destruct (degenerate (tile_box (img_width base_img) (img_height base_img)
                          tile_w tile_h r c)) eqn:Ed.
  - rewrite (cell_overlay_dead base_img ext tile_w tile_h _ r c Ed). reflexivity.
  - destruct (cell_overlay_live base_img ext tile_w tile_h (r * cols + c) r c Ed)
      as (t & _ & Hov & _).
    rewrite Hov. reflexivity.
Qed.

Lemma filter_all {A : Type} (f : A -> bool) (l : list A) :
  forallb f l = true -> filter f l = l.
Proof.
  induction l as [ | a l IH ]; [ reflexivity | ].
  cbn [forallb filter]. intros Hall. apply andb_true_iff in Hall.
  destruct Hall as [Ha Hl]. rewrite Ha. f_equal. now apply IH.
Qed.

(** In the grid of [processAlgorithm] no cell is degenerate. *)
Lemma plan_all_live (newW newH : Z) :
  1 <= newW -> 1 <= newH ->
  let cols := ceil_div newW TILE_SIDE in
  let rows := ceil_div newH TILE_SIDE in
  forallb (live newW newH (ceil_div newW cols) (ceil_div newH rows))
    (cells cols rows) = true.
Proof.
  intros HW HH cols rows. apply forallb_forall. intros [r c] Hin.
  apply in_cells in Hin. destruct Hin as [Hr Hc].
  destruct (grid_column newW c HW Hc) as (_ & _ & Hx & Hwd).
  destruct (grid_column newH r HH Hr) as (_ & _ & Hy & Hht).
  fold cols in Hx, Hwd. fold rows in Hy, Hht.
  unfold live. cbn [fst snd]. apply negb_true_iff.
  unfold tile_box. apply degenerate_false. lia.
Qed.

(** [lon_at] and [lat_at] at the ends of the image, and their order. *)
Lemma div_0 (w : Q) : Float.div 0 w = 0%Q.
Proof. unfold Float.div, Float.f64. apply round_to_0. unfold Qdiv. ring. Qed.

Lemma mul_0_r (s : Q) : Float.mul s 0 = 0%Q.
Proof. unfold Float.mul, Float.f64. apply round_to_0. ring. Qed.

Lemma div_same (w : Z) : 1 <= w -> Float.div (Py.float w) (Py.float w) = 1%Q.
Proof.
  intros Hw. unfold Float.div, Float.f64, Py.float.
  rewrite (round_to_comp 53 (-1074) (inject_Z w / inject_Z w) 1); [ reflexivity | ].
  field. change 0%Q with (inject_Z 0). rewrite inject_Z_injective. lia.
Qed.

Lemma lon_at_0 (ext : extent) (width : Z) :
  lon_at ext width 0 = Float.f64 (west0 ext).
Proof.
  unfold lon_at. cbv zeta. change (Py.float 0) with 0%Q.
  rewrite div_0, mul_0_r. unfold Float.add, Float.f64. apply round_to_comp. ring.
Qed.

Lemma lat_at_0 (ext : extent) (height : Z) :
  lat_at ext height 0 = Float.f64 (north0 ext).
Proof.
  unfold lat_at. cbv zeta. change (Py.float 0) with 0%Q.
  rewrite div_0, mul_0_r. unfold Float.sub, Float.f64. apply round_to_comp. ring.
Qed.

Lemma lon_at_full (ext : extent) (width : Z) :
  1 <= width -> lon_at ext width width = east_edge ext.
Proof. intros Hw. unfold lon_at, east_edge. cbv zeta. now rewrite div_same. Qed.

Lemma lat_at_full (ext : extent) (height : Z) :
  1 <= height -> lat_at ext height height = south_edge ext.
Proof. intros Hh. unfold lat_at, south_edge. cbv zeta. now rewrite div_same. Qed.

(** When the two operations [b - a] and [a + (b - a)] are exact, the far
    edge is the far corner of the extent. *)
Lemma east_edge_exact (ext : extent) :
  is_double (east0 ext) ->
  (Float.f64 (east0 ext - west0 ext) == east0 ext - west0 ext)%Q ->
  (east_edge ext == east0 ext)%Q.
Proof.
  intros He Hs. unfold east_edge, Float.add, Float.mul, Float.sub.
  assert (E1 : (Float.f64 (Float.f64 (east0 ext - west0 ext) * 1)
                == east0 ext - west0 ext)%Q).
  { unfold Float.f64 at 1.
    rewrite (round_to_comp 53 (-1074) _ (east0 ext - west0 ext));
      [ exact Hs | rewrite Hs; ring ]. }
  unfold Float.f64 at 1.
  rewrite (round_to_comp 53 (-1074) _ (east0 ext)); [ exact He | ].
  rewrite E1. ring.
Qed.

Lemma south_edge_exact (ext : extent) :
  is_double (south0 ext) ->
  (Float.f64 (north0 ext - south0 ext) == north0 ext - south0 ext)%Q ->
  (south_edge ext == south0 ext)%Q.
Proof.
  intros He Hs. unfold south_edge, Float.mul, Float.sub.
  assert (E1 : (Float.f64 (Float.f64 (north0 ext - south0 ext) * 1)
                == north0 ext - south0 ext)%Q).
  { unfold Float.f64 at 1.
    rewrite (round_to_comp 53 (-1074) _ (north0 ext - south0 ext));
      [ exact Hs | rewrite Hs; ring ]. }
  unfold Float.f64 at 1.
  rewrite (round_to_comp 53 (-1074) _ (south0 ext)); [ exact He | ].
  rewrite E1. ring.
Qed.

Lemma frac_le (n x y : Z) :
  1 <= n -> x <= y -> (inject_Z x / inject_Z n <= inject_Z y / inject_Z n)%Q.
Proof.
  intros Hn Hxy.
  assert (Hpos : (0 < / inject_Z n)%Q).
  { apply Qinv_lt_0_compat. change 0%Q with (inject_Z 0).
    rewrite <- Zlt_Qlt. lia. }
  unfold Qdiv. apply Qmult_le_compat_r; [ | now apply Qlt_le_weak ].
  rewrite <- Zle_Qle. exact Hxy.
Qed.

(** The scaled offset [span * (x / float(n))] grows with [x]. *)
Lemma offset_le (a b : Q) (n x y : Z) :
  1 <= n -> (a <= b)%Q -> x <= y ->
  (Float.mul (Float.sub b a) (Float.div (Py.float x) (Py.float n))
   <= Float.mul (Float.sub b a) (Float.div (Py.float y) (Py.float n)))%Q.
Proof.
  intros Hn Hab Hxy. unfold Float.mul, Float.div, Py.float.
  apply f64_mono.
  assert (Hs : (0 <= Float.sub b a)%Q)
    by (unfold Float.sub, Float.f64; apply round_to_nonneg; Lqa.lra).
  rewrite !(Qmult_comm (Float.sub b a)).
  apply Qmult_le_compat_r; [ | exact Hs ].
  apply f64_mono. now apply frac_le.
Qed.

Lemma lon_at_le (ext : extent) (width x y : Z) :
  1 <= width -> (west0 ext <= east0 ext)%Q -> x <= y ->
  (lon_at ext width x <= lon_at ext width y)%Q.
Proof.
  intros Hw Hext Hxy. unfold lon_at, Float.add. cbv zeta.
  apply f64_mono. pose proof (offset_le _ _ width x y Hw Hext Hxy). Lqa.lra.
Qed.

Lemma lat_at_le (ext : extent) (height x y : Z) :
  1 <= height -> (south0 ext <= north0 ext)%Q -> x <= y ->
  (lat_at ext height y <= lat_at ext height x)%Q.
Proof.
  intros Hh Hext Hxy. unfold lat_at. cbv zeta. unfold Float.sub at 1 3.
  apply f64_mono. pose proof (offset_le _ _ height x y Hh Hext Hxy). Lqa.lra.
Qed.

(** Two different columns (rows) of a regular grid do not share a point. *)
Lemma columns_apart (ext : extent) (width cols tile_w c c' : Z) (lon : Q) :
  axis_ok width cols tile_w -> (west0 ext <= east0 ext)%Q ->
  0 <= c < cols -> 0 <= c' < cols ->
  (lon_at ext width (c * tile_w) <= lon)%Q ->
  (lon < lon_at ext width (Z.min width (c * tile_w + tile_w)))%Q ->
  (lon_at ext width (c' * tile_w) <= lon)%Q ->
  (lon < lon_at ext width (Z.min width (c' * tile_w + tile_w)))%Q ->
  c' = c.
Proof.
  intros Ax Hext Hc Hc' H1 H2 H3 H4.
  assert (Hw : 1 <= width) by (destruct Ax as (? & ? & ? & ?); nia).
  destruct Ax as (_ & Ht & _ & _).
  destruct (Z.lt_trichotomy c' c) as [Hlt | [Heq | Hgt]]; [ | exact Heq | ]; exfalso.
  - assert (Hle : (lon_at ext width (Z.min width (c' * tile_w + tile_w))
                   <= lon_at ext width (c * tile_w))%Q)
      by (apply lon_at_le; [ assumption | assumption | nia ]).
    Lqa.lra.
  - assert (Hle : (lon_at ext width (Z.min width (c * tile_w + tile_w))
                   <= lon_at ext width (c' * tile_w))%Q)
      by (apply lon_at_le; [ assumption | assumption | nia ]).
    Lqa.lra.
Qed.

Lemma rows_apart (ext : extent) (height rows tile_h r r' : Z) (lat : Q) :
  axis_ok height rows tile_h -> (south0 ext <= north0 ext)%Q ->
  0 <= r < rows -> 0 <= r' < rows ->
  (lat_at ext height (Z.min height (r * tile_h + tile_h)) < lat)%Q ->
  (lat <= lat_at ext height (r * tile_h))%Q ->
  (lat_at ext height (Z.min height (r' * tile_h + tile_h)) < lat)%Q ->
  (lat <= lat_at ext height (r' * tile_h))%Q ->
  r' = r.
Proof.
  intros Ay Hext Hr Hr' H1 H2 H3 H4.
  assert (Hh : 1 <= height) by (destruct Ay as (? & ? & ? & ?); nia).
  destruct Ay as (_ & Ht & _ & _).
  destruct (Z.lt_trichotomy r' r) as [Hlt | [Heq | Hgt]]; [ | exact Heq | ]; exfalso.
  - assert (Hle : (lat_at ext height (r * tile_h)
                   <= lat_at ext height (Z.min height (r' * tile_h + tile_h)))%Q)
      by (apply lat_at_le; [ assumption | assumption | nia ]).
    Lqa.lra.
  - assert (Hle : (lat_at ext height (r' * tile_h)
                   <= lat_at ext height (Z.min height (r * tile_h + tile_h)))%Q)
      by (apply lat_at_le; [ assumption | assumption | nia ]).
    Lqa.lra.
Qed.

(** Every longitude between the outer edges falls in one column. *)
Lemma column_of (ext : extent) (width cols tile_w : Z) (lon : Q) :
  axis_ok width cols tile_w -> is_double (west0 ext) ->
  (west0 ext <= lon)%Q -> (lon < east_edge ext)%Q ->
  exists c, 0 <= c < cols
    /\ (lon_at ext width (c * tile_w) <= lon)%Q
    /\ (lon < lon_at ext width (Z.min width (c * tile_w + tile_w)))%Q.
Proof.
  intros Ax Hd Hlo Hhi.
  assert (Hw : 1 <= width) by (destruct Ax as (? & ? & ? & ?); nia).
  pose (f := fun c : Z => lon_at ext width (Z.min width (c * tile_w))).
  destruct (chain_locate f (Z.to_nat cols) lon) as (c & Hc & Hl & Hr).
  - unfold f. change (0 * tile_w) with 0. rewrite Z.min_r by lia.
    rewrite lon_at_0. unfold is_double in Hd. rewrite Hd. exact Hlo.
  - unfold f. rewrite Z2Nat.id by (destruct Ax; lia).
    replace (Z.min width (cols * tile_w)) with width
      by (destruct Ax as (? & ? & ? & ?); lia).
    rewrite lon_at_full by exact Hw. exact Hhi.
  - rewrite Z2Nat.id in Hc by (destruct Ax; lia).
    exists c. split; [ exact Hc | ].
    pose proof (axis_start width cols tile_w c Ax Hc) as Sx.
    unfold f in Hl, Hr. rewrite Z.min_r in Hl by lia.
    replace ((c + 1) * tile_w) with (c * tile_w + tile_w) in Hr by ring.
    split; assumption.
Qed.

(** Every latitude between the outer edges falls in one row. *)
Lemma row_of (ext : extent) (height rows tile_h : Z) (lat : Q) :
  axis_ok height rows tile_h -> is_double (north0 ext) ->
  (south_edge ext < lat)%Q -> (lat <= north0 ext)%Q ->
  exists r, 0 <= r < rows
    /\ (lat_at ext height (Z.min height (r * tile_h + tile_h)) < lat)%Q
    /\ (lat <= lat_at ext height (r * tile_h))%Q.
Proof.
  intros Ay Hd Hlo Hhi.
  assert (Hh : 1 <= height) by (destruct Ay as (? & ? & ? & ?); nia).
  pose (f := fun r : Z => (- lat_at ext height (Z.min height (r * tile_h)))%Q).
  destruct (chain_locate f (Z.to_nat rows) (- lat)%Q) as (r & Hr & Hl & Hu).
  - unfold f. change (0 * tile_h) with 0. rewrite Z.min_r by lia.
    rewrite lat_at_0. unfold is_double in Hd. rewrite Hd. Lqa.lra.
  - unfold f. rewrite Z2Nat.id by (destruct Ay; lia).
    replace (Z.min height (rows * tile_h)) with height
      by (destruct Ay as (? & ? & ? & ?); lia).
    rewrite lat_at_full by exact Hh. Lqa.lra.
  - rewrite Z2Nat.id in Hr by (destruct Ay; lia).
    exists r. split; [ exact Hr | ].
    pose proof (axis_start height rows tile_h r Ay Hr) as Sy.
    unfold f in Hl, Hu. rewrite Z.min_r in Hl by lia.
    replace ((r + 1) * tile_h) with (r * tile_h + tile_h) in Hu by ring.
    split; Lqa.lra.
Qed.

(** C6.  For a grid without skipped cells over an extent whose corners are
    doubles with [south0 <= north0] and [west0 <= east0], the boxes computed
    in double arithmetic tile the box between [west0], [north0] and the two
    far edges the loop computes, [east_edge] and [south_edge]:
    - a tile's east edge is the west edge of the next tile of its row and
      its south edge is the north edge of the tile below, the same double;
    - column 0 starts at [west0] and row 0 at [north0]; the last column ends
      at [east_edge] and the last row at [south_edge], which are [east0]
      and [south0] when the subtraction of the span is exact;
    - the Y axis is flipped: no tile has its south edge above its north
      edge or its west edge right of its east edge, a row further down lies
      to the south and a column further right lies to the east;
    - every pixel of the image lies in the crop box of exactly one cell;
    - every point with [west0 <= lon < east_edge] and
      [south_edge < lat <= north0] lies in the box of exactly one cell. *)
Theorem tile_boxes_partition (ext : extent) (width height cols rows : Z) :
  1 <= cols -> 1 <= rows ->
  let tile_w := ceil_div width cols in
  let tile_h := ceil_div height rows in
  forallb (live width height tile_w tile_h) (cells cols rows) = true ->
  extent_ok ext ->
  (south0 ext <= north0 ext)%Q -> (west0 ext <= east0 ext)%Q ->
  let geo := tile_geo ext width height tile_w tile_h in
  (forall r c, 0 <= r < rows -> 0 <= c < cols ->
     (c + 1 < cols -> g_east (geo r c) = g_west (geo r (c + 1)))
     /\ (r + 1 < rows -> g_south (geo r c) = g_north (geo (r + 1) c)))
  /\ (forall r c,
        (g_west (geo r 0%Z) == west0 ext)%Q
        /\ (g_north (geo 0%Z c) == north0 ext)%Q
        /\ g_east (geo r (cols - 1)) = east_edge ext
        /\ g_south (geo (rows - 1) c) = south_edge ext)
  /\ ((Float.f64 (east0 ext - west0 ext) == east0 ext - west0 ext)%Q ->
      (east_edge ext == east0 ext)%Q)
  /\ ((Float.f64 (north0 ext - south0 ext) == north0 ext - south0 ext)%Q ->
      (south_edge ext == south0 ext)%Q)
  /\ (forall r c r' c',
        0 <= r < rows -> 0 <= c < cols -> 0 <= r' < rows -> 0 <= c' < cols ->
        (g_south (geo r c) <= g_north (geo r c))%Q
        /\ (g_west (geo r c) <= g_east (geo r c))%Q
        /\ (r < r' -> (g_north (geo r' c') <= g_south (geo r c))%Q)
        /\ (c < c' -> (g_east (geo r c) <= g_west (geo r' c'))%Q))
  /\ (forall x y, 0 <= x < width -> 0 <= y < height ->
        0 <= y / tile_h < rows /\ 0 <= x / tile_w < cols
        /\ in_pixels (tile_box width height tile_w tile_h (y / tile_h) (x / tile_w))
             x y = true
        /\ (forall r' c',
              in_pixels (tile_box width height tile_w tile_h r' c') x y = true ->
              r' = y / tile_h /\ c' = x / tile_w))
  /\ (forall lon lat,
        (west0 ext <= lon)%Q -> (lon < east_edge ext)%Q ->
        (south_edge ext < lat)%Q -> (lat <= north0 ext)%Q ->
        exists r c,
          0 <= r < rows /\ 0 <= c < cols /\ in_geo (geo r c) lon lat
          /\ (forall r' c', 0 <= r' < rows -> 0 <= c' < cols ->
                in_geo (geo r' c') lon lat -> r' = r /\ c' = c)).
Proof.
  intros Hcols Hrows tile_w tile_h Hall (Dn & Ds & De & Dw) Hlat Hlon geo.
  destruct (live_grid width height cols rows Hcols Hrows Hall) as [Ax Ay].
  fold tile_w in Ax. fold tile_h in Ay.
  assert (Hw : 1 <= width) by (destruct Ax as (? & ? & ? & ?); nia).
  assert (Hh : 1 <= height) by (destruct Ay as (? & ? & ? & ?); nia).
  split; [ | split; [ | split; [ | split; [ | split; [ | split ] ] ] ] ].
  - intros r c Hr Hc.
    unfold geo, tile_geo, tile_box. cbn [g_east g_west g_south g_north]. split.
    + intros Hc1. now rewrite (axis_next width cols tile_w c Ax) by lia.
    + intros Hr1. now rewrite (axis_next height rows tile_h r Ay) by lia.
  - intros r c.
    unfold geo, tile_geo, tile_box. cbn [g_east g_west g_south g_north].
    split; [ | split; [ | split ] ].
    + change (0 * tile_w) with 0. rewrite lon_at_0. exact Dw.
    + change (0 * tile_h) with 0. rewrite lat_at_0. exact Dn.
    + rewrite (axis_last width cols tile_w Ax). now apply lon_at_full.
    + rewrite (axis_last height rows tile_h Ay). now apply lat_at_full.
  - now apply east_edge_exact.
  - now apply south_edge_exact.
  - intros r c r' c' Hr Hc Hr' Hc'.
    pose proof (axis_start width cols tile_w c Ax Hc) as Sx.
    pose proof (axis_start height rows tile_h r Ay Hr) as Sy.
    unfold geo, tile_geo, tile_box. cbn [g_east g_west g_south g_north].
    split; [ | split; [ | split ] ].
    + apply lat_at_le; [ assumption | assumption | lia ].
    + apply lon_at_le; [ assumption | assumption | lia ].
    + intros Hlt. apply lat_at_le; [ assumption | assumption | ].
      destruct Ay as (_ & Ht & _ & _). nia.
    + intros Hlt. apply lon_at_le; [ assumption | assumption | ].
      destruct Ax as (_ & Ht & _ & _). nia.
  - intros x y Hx Hy.
    destruct (axis_locate width cols tile_w x Ax Hx) as [Hc Hcx].
    destruct (axis_locate height rows tile_h y Ay Hy) as [Hr Hry].
    split; [ exact Hr | ]. split; [ exact Hc | ]. split.
    + unfold in_pixels, tile_box.
      rewrite !andb_true_iff, !Z.leb_le, !Z.ltb_lt. lia.
    + intros r' c' Hin. unfold in_pixels, tile_box in Hin.
      rewrite !andb_true_iff, !Z.leb_le, !Z.ltb_lt in Hin.
      split.
      * apply (axis_unique height rows tile_h y r' Ay). lia.
      * apply (axis_unique width cols tile_w x c' Ax). lia.
  - intros lon lat Hw0 He0 Hs0 Hn0.
    destruct (column_of ext width cols tile_w lon Ax Dw Hw0 He0) as (c & Hc & Hc1 & Hc2).
    destruct (row_of ext height rows tile_h lat Ay Dn Hs0 Hn0) as (r & Hr & Hr1 & Hr2).
    exists r, c. split; [ exact Hr | ]. split; [ exact Hc | ].
    unfold geo, in_geo, tile_geo, tile_box. cbn [g_east g_west g_south g_north].
    split; [ repeat split; assumption | ].
    intros r' c' Hr' Hc' (G1 & G2 & G3 & G4). split.
    + apply (rows_apart ext height rows tile_h r r' lat); try assumption.
    + apply (columns_apart ext width cols tile_w c c' lon); try assumption.
Qed.

Lemma tile_boxes_partition_witness :
  let geo := tile_geo sample_extent 10 7 (ceil_div 10 3) (ceil_div 7 2) in
  g_east (geo 0 1) = g_west (geo 0 2)
  /\ g_south (geo 0 1) = g_north (geo 1 1)
  /\ (east_edge sample_extent == east0 sample_extent)%Q
  /\ (south_edge sample_extent == south0 sample_extent)%Q
  /\ (g_north (geo 1%Z 2%Z) <= g_south (geo 0%Z 0%Z))%Q
  /\ exists r c, 0 <= r < 2 /\ 0 <= c < 3 /\ in_geo (geo r c) 15 45.
Proof.
  destruct (tile_boxes_partition sample_extent 10 7 3 2)
    as (Hadj & _ & He & Hs & Hord & _ & Hpt);
    [ lia | lia | reflexivity
    | repeat split; vm_compute; reflexivity
    | vm_compute; discriminate | vm_compute; discriminate | ].
  destruct (Hadj 0 1 ltac:(lia) ltac:(lia)) as [A1 A2].
  destruct (Hord 0 0 1 2 ltac:(lia) ltac:(lia) ltac:(lia) ltac:(lia))
    as (_ & _ & O1 & _).
  destruct (Hpt 15%Q 45%Q) as (r & c & Hr & Hc & Hin & _);
    [ vm_compute; discriminate | vm_compute; reflexivity
    | vm_compute; reflexivity | vm_compute; discriminate | ].
  split; [ apply A1; lia | ].
  split; [ apply A2; lia | ].
  split; [ apply He; vm_compute; reflexivity | ].
  split; [ apply Hs; vm_compute; reflexivity | ].
  split; [ apply O1; lia | ].
  exists r, c. split; [ exact Hr | ]. split; [ exact Hc | exact Hin ].
Defined.

(** Where C6 as stated fails.  For the extent with corners 3.4, 0.7, -7.8
    and -19.9 and a single tile, the east edge of the tile lies west of
    [east0], so that a point of the extent is in no tile, and its south edge
    lies south of [south0].  For the extent one unit in the last place wide
    cut into two columns and two rows, the left column has its west and
    east edges equal and the lower row its north and south edges equal,
    although neither is degenerate in pixels. *)
Lemma tile_boxes_miss_extent :
  (let ext := decimal_extent in
   let geo := tile_geo ext 10 7 (ceil_div 10 1) (ceil_div 7 1) in
   extent_ok ext
   /\ forallb (live 10 7 (ceil_div 10 1) (ceil_div 7 1)) (cells 1 1) = true
   /\ (g_east (geo 0%Z 0%Z) < east0 ext)%Q
   /\ (g_south (geo 0%Z 0%Z) < south0 ext)%Q
   /\ (west0 ext <= g_east (geo 0%Z 0%Z))%Q
   /\ ~ in_geo (geo 0 0) (g_east (geo 0 0)) (north0 ext))
  /\ (let ext := thin_extent in
      let geo := tile_geo ext 2 2 (ceil_div 2 2) (ceil_div 2 2) in
      extent_ok ext
      /\ (south0 ext < north0 ext)%Q /\ (west0 ext < east0 ext)%Q
      /\ forallb (live 2 2 (ceil_div 2 2) (ceil_div 2 2)) (cells 2 2) = true
      /\ g_west (geo 0 0) = g_east (geo 0 0)
      /\ g_north (geo 1 0) = g_south (geo 1 0)).
Proof.
  split.
  - cbv zeta. split; [ repeat split; vm_compute; reflexivity | ].
    split; [ reflexivity | ].
    split; [ vm_compute; reflexivity | ].
    split; [ vm_compute; reflexivity | ].
    split; [ vm_compute; discriminate | ].
    intros (_ & H & _). vm_compute in H. discriminate.
  - cbv zeta. split; [ repeat split; vm_compute; reflexivity | ].
    repeat split; vm_compute; reflexivity.
Qed.

(* ================================================================== *)
(** * The counter of the loop and the cells *)
(* ================================================================== *)

Lemma seq_offset (a s n : nat) :
  map (fun c => (a + c)%nat) (seq s n) = seq (a + s) n.
Proof.
  revert s. induction n as [ | n IH ]; intros s; [ reflexivity | ].
  cbn [seq map]. f_equal. rewrite IH. f_equal. lia.
Qed.

(** Row by row, the counter [r * cols + c] runs through [0 .. rows*cols-1]. *)
Lemma scan_indices_nat (C R : nat) :
  flat_map (fun r => map (fun c => (r * C + c)%nat) (seq 0 C)) (seq 0 R)
  = seq 0 (R * C).
Proof.
  induction R as [ | R IH ]; [ reflexivity | ].
  rewrite seq_S, flat_map_app, IH. cbn [flat_map Nat.add]. rewrite app_nil_r.
  rewrite seq_offset, Nat.add_0_r.
  replace (S R * C)%nat with (R * C + C)%nat by lia.
  now rewrite seq_app.
Qed.

Lemma map_flat_map {A B C : Type} (f : B -> C) (g : A -> list B) (l : list A) :
  map f (flat_map g l) = flat_map (fun x => map f (g x)) l.
Proof.
  induction l as [ | x l IH ]; simpl; [ reflexivity | ].
  now rewrite map_app, IH.
Qed.

Lemma cells_indices (cols rows : Z) :
  0 <= cols -> 0 <= rows ->
  map (fun rc => fst rc * cols + snd rc) (cells cols rows) = range (rows * cols).
Proof.
  intros Hc Hr. unfold cells, range.
  replace (Z.to_nat (rows * cols)) with (Z.to_nat rows * Z.to_nat cols)%nat
    by (rewrite Z2Nat.inj_mul; lia).
  rewrite <- scan_indices_nat, !map_flat_map, flat_map_map.
  apply flat_map_ext. intros r. rewrite !map_map. apply map_ext. intros c.
  cbn [fst snd]. lia.
Qed.

Lemma length_range (n : Z) : 0 <= n -> Z.of_nat (List.length (range n)) = n.
Proof. intros Hn. unfold range. rewrite length_map, length_seq. lia. Qed.

(* ================================================================== *)
(** * What the loop stores *)
(* ================================================================== *)

(** The box stored with each overlay is the box of its cell, computed from
    the corners of the crop: the overlays of the loop carry, in scan order,
    the boxes [tile_geo] of the cells that were not skipped. *)
Theorem overlay_boxes_scan_order `{IL : ImagingLaws}
  (base_img : image) (ext : extent) (cols rows : Z) :
  1 <= cols -> 1 <= rows ->
  let width := img_width base_img in
  let height := img_height base_img in
  let tile_w := ceil_div width cols in
  let tile_h := ceil_div height rows in
  exists overlays,
    tiles_loop base_img ext cols rows = Done overlays
    /\ map box_of overlays
       = map (fun rc => tile_geo ext width height tile_w tile_h (fst rc) (snd rc))
           (filter (live width height tile_w tile_h) (cells cols rows)).
Proof.
  intros Hc Hr width height tile_w tile_h.
  eexists. split; [ apply tiles_loop_scan; assumption | ].
  apply scan_boxes.
Qed.

Lemma overlay_boxes_scan_order_witness :
  exists overlays,
    tiles_loop (px 9 9) sample_extent 4 2 = Done overlays
    /\ map box_of overlays
       = map (fun rc => tile_geo sample_extent 9 9 3 5 (fst rc) (snd rc))
           [(0, 0); (0, 1); (0, 2); (1, 0); (1, 1); (1, 2)].
Proof.
  destruct (overlay_boxes_scan_order (IL := size_only_laws) (px 9 9) sample_extent 4 2)
    as (overlays & E & Hb); [ lia | lia | ].
  exists overlays. split; [ exact E | ].
  rewrite Hb. reflexivity.
Defined.

(** In an export no cell of the grid is skipped.  For a resampled image of
    [newW] x [newH] pixels and the grid of [processAlgorithm], the loop
    stores one overlay for every cell: [cols * rows] overlays, named
    [image_000.jpg], [image_001.jpg], ... with consecutive numbers, each
    with the box of its cell. *)
Theorem export_stores_every_tile `{IL : ImagingLaws}
  (base_img : image) (ext : extent) (newW newH : Z) :
  img_size base_img = (newW, newH) ->
  1 <= newW -> 1 <= newH ->
  let cols := ceil_div newW TILE_SIDE in
  let rows := ceil_div newH TILE_SIDE in
  let tile_w := ceil_div newW cols in
  let tile_h := ceil_div newH rows in
  exists overlays,
    tiles_loop base_img ext cols rows = Done overlays
    /\ Z.of_nat (List.length overlays) = cols * rows
    /\ map fname overlays = map image_name (range (rows * cols))
    /\ map box_of overlays
       = map (fun rc => tile_geo ext newW newH tile_w tile_h (fst rc) (snd rc))
           (cells cols rows).
Proof.
  intros Es HW HH cols rows tile_w tile_h.
  assert (Ew : img_width base_img = newW) by (unfold img_width; now rewrite Es).
  assert (Eh : img_height base_img = newH) by (unfold img_height; now rewrite Es).
  destruct (plan_grid newW HW) as (Hcols & _).
  destruct (plan_grid newH HH) as (Hrows & _).
  fold cols in Hcols. fold rows in Hrows.
  pose proof (plan_all_live newW newH HW HH) as Hall. cbv zeta in Hall.
  fold cols rows tile_w tile_h in Hall.
  assert (Hnames :
    map fname
      (flat_map (fun rc => cell_overlay base_img ext tile_w tile_h
                             (fst rc * cols + snd rc) rc) (cells cols rows))
    = map image_name (range (rows * cols))).
  { rewrite scan_names, Ew, Eh, (filter_all _ _ Hall).
    rewrite <- (cells_indices cols rows) by lia. now rewrite map_map. }
  eexists. split; [ apply tiles_loop_scan; assumption | ].
  rewrite Ew, Eh. fold cols rows tile_w tile_h.
  split; [ | split; [ exact Hnames | ] ].
  - rewrite <- (length_map fname), Hnames, length_map.
    rewrite length_range by nia. ring.
  - rewrite scan_boxes, Ew, Eh, (filter_all _ _ Hall). reflexivity.
Qed.

Lemma export_stores_every_tile_witness :
  exists overlays,
    tiles_loop (px 2500 1200) sample_extent
      (ceil_div 2500 TILE_SIDE) (ceil_div 1200 TILE_SIDE) = Done overlays
    /\ map fname overlays
       = ["image_000.jpg"; "image_001.jpg"; "image_002.jpg";
          "image_003.jpg"; "image_004.jpg"; "image_005.jpg"]%string.
Proof.
  destruct (export_stores_every_tile (IL := size_only_laws)
              (px 2500 1200) sample_extent 2500 1200)
    as (overlays & E & _ & Hn & _); [ reflexivity | lia | lia | ].
  exists overlays. split; [ exact E | ]. rewrite Hn. reflexivity.
Defined.


(* ================================================================== *)
(** * The digits of a name, for every index *)
(* ================================================================== *)

Lemma length_append (s t : string) :
  String.length (s ++ t) = (String.length s + String.length t)%nat.
Proof. induction s as [ | a s IH ]; simpl; [ reflexivity | now rewrite IH ]. Qed.

Lemma length_zeros (k : nat) :
  String.length (string_of_list_ascii (repeat "0"%char k)) = k.
Proof. induction k as [ | k IH ]; simpl; [ reflexivity | now rewrite IH ]. Qed.

(** A string of digits is as long as the number has digits. *)
Lemma length_string_of_uint (d : Decimal.uint) :
  String.length (NilEmpty.string_of_uint d) = Decimal.nb_digits d.
Proof. induction d; simpl; congruence. Qed.

(** A number written with at most three digits is below 1000. *)
Lemma of_uint_small (d : Decimal.uint) :
  (Decimal.nb_digits d <= 3)%nat -> (N.of_uint d < 1000)%N.
Proof.
  intros H.
  destruct d as [ |d|d|d|d|d|d|d|d|d|d]; [ reflexivity | .. ];
  (destruct d as [ |d|d|d|d|d|d|d|d|d|d]; [ reflexivity | .. ]);
  (destruct d as [ |d|d|d|d|d|d|d|d|d|d]; [ reflexivity | .. ]);
  (assert (E : d = Decimal.Nil)
     by (apply DecimalFacts.nb_digits_0; simpl in H; lia);
   rewrite E; reflexivity).
Qed.

(** From 1000 on the decimal digits are four or more. *)
Lemma digits_long (idx : Z) :
  1000 <= idx -> (4 <= String.length (digits idx))%nat.
Proof.
  intros Hidx. unfold digits.
  set (d := N.to_uint (Z.to_N idx)).
  assert (Hd : N.of_uint d = Z.to_N idx) by apply DecimalN.Unsigned.of_to.
  destruct (Nat.le_gt_cases (Decimal.nb_digits d) 3) as [Hle | Hgt].
  - pose proof (of_uint_small d Hle) as Hs. rewrite Hd in Hs. lia.
  - destruct d eqn:Ed; [ simpl in Hgt; lia | .. ];
      unfold NilZero.string_of_uint; rewrite length_string_of_uint; exact Hgt.
Qed.

Lemma read_zeros (k : nat) (s : string) :
  NilEmpty.uint_of_string (string_of_list_ascii (repeat "0"%char k) ++ s)
  = option_map (Nat.iter k Decimal.D0) (NilEmpty.uint_of_string s).
Proof.
  induction k as [ | k IH ].
  - simpl. now destruct (NilEmpty.uint_of_string s).
  - cbn [repeat string_of_list_ascii append NilEmpty.uint_of_string].
    rewrite IH. now destruct (NilEmpty.uint_of_string s).
Qed.

Lemma of_uint_zeros (k : nat) (d : Decimal.uint) :
  N.of_uint (Nat.iter k Decimal.D0 d) = N.of_uint d.
Proof. induction k as [ | k IH ]; [ reflexivity | exact IH ]. Qed.

Lemma read_digits (idx : Z) : 0 <= idx -> read_decimal (digits idx) = Some idx.
Proof.
  intros Hidx. unfold read_decimal, digits.
  pose proof (DecimalN.Unsigned.of_to (Z.to_N idx)) as Hd.
  destruct (N.to_uint (Z.to_N idx)) eqn:Ed;
    [ cbn in Hd |- *; f_equal; lia | .. ];
    unfold NilZero.string_of_uint; rewrite NilEmpty.usu; cbn [option_map];
    rewrite Hd; f_equal; lia.
Qed.

(** Read back as a number, the digits of [format_03d] give the index. *)
Lemma read_format_03d (idx : Z) :
  0 <= idx -> read_decimal (format_03d idx) = Some idx.
Proof.
  intros Hidx. pose proof (read_digits idx Hidx) as Hr.
  unfold format_03d. rewrite (proj2 (Z.ltb_ge idx 0) Hidx).
  unfold zfill, read_decimal in *. rewrite read_zeros.
  destruct (NilEmpty.uint_of_string (digits idx)) as [ d | ]; [ | discriminate ].
  cbn [option_map] in *. now rewrite of_uint_zeros.
Qed.

Lemma length_format_03d (idx : Z) :
  0 <= idx ->
  String.length (format_03d idx) = Nat.max 3 (String.length (digits idx)).
Proof.
  intros Hidx. unfold format_03d. rewrite (proj2 (Z.ltb_ge idx 0) Hidx).
  unfold zfill. rewrite length_append, length_zeros. lia.
Qed.

(** From 1000 on nothing is padded. *)
Lemma format_03d_plain (idx : Z) : 1000 <= idx -> format_03d idx = digits idx.
Proof.
  intros Hidx. pose proof (digits_long idx Hidx) as Hl.
  unfold format_03d. rewrite (proj2 (Z.ltb_ge idx 0)) by lia.
  unfold zfill.
  replace (3 - String.length (digits idx))%nat with 0%nat by lia.
  reflexivity.
Qed.

(** C9, as the code has it.  The loop gives one overlay for every cell that
    is not degenerate, in scan order (row 0 first, each row from column 0),
    and names the overlay of cell [(r, c)] [image_N.jpg] with [N] the counter
    [r * cols + c]: a skipped cell takes its number with it.  The archive
    holds [doc.kml] and then the overlays under these names.  [N] is the
    counter in decimal (read back, the digits give the counter), padded with
    zeros to three digits when it has fewer: exactly three digits below
    1000, and from 1000 on the plain number, of four digits or more. *)
Theorem overlay_names_scan_order `{IL : ImagingLaws}
  (base_img : image) (ext : extent) (cols rows : Z) :
  1 <= cols -> 1 <= rows ->
  let width := img_width base_img in
  let height := img_height base_img in
  let tile_w := ceil_div width cols in
  let tile_h := ceil_div height rows in
  exists overlays,
    tiles_loop base_img ext cols rows = Done overlays
    /\ map fname overlays
       = map (fun rc => image_name (fst rc * cols + snd rc))
           (filter (live width height tile_w tile_h) (cells cols rows))
    /\ (forall kml, map fst (write_archive kml overlays)
                    = "doc.kml"%string :: map fname overlays)
    /\ (forall idx, 0 <= idx ->
          image_name idx = ("image_" ++ format_03d idx ++ ".jpg")%string
          /\ read_decimal (format_03d idx) = Some idx
          /\ String.length (format_03d idx)
             = Nat.max 3 (String.length (digits idx))
          /\ (idx < 1000 -> format_03d idx = three_digits idx)
          /\ (1000 <= idx ->
              format_03d idx = digits idx
              /\ (4 <= String.length (format_03d idx))%nat)).
Proof.
  intros Hc Hr width height tile_w tile_h.
  eexists. split; [ apply tiles_loop_scan; assumption | ].
  split; [ apply scan_names | ]. split.
  - intros kml. unfold write_archive. cbn [map fst]. f_equal.
    rewrite map_map. reflexivity.
  - intros idx Hidx. split; [ reflexivity | ].
    split; [ now apply read_format_03d | ].
    split; [ now apply length_format_03d | ]. split.
    + intros Hlt. apply format_03d_three_digits. lia.
    + intros Hge. split; [ now apply format_03d_plain | ].
      rewrite format_03d_plain by exact Hge. now apply digits_long.
Qed.

Lemma overlay_names_scan_order_witness :
  exists overlays,
    tiles_loop (px 9 9) sample_extent 4 2 = Done overlays
    /\ map fname overlays
       = ["image_000.jpg"; "image_001.jpg"; "image_002.jpg";
          "image_004.jpg"; "image_005.jpg"; "image_006.jpg"]%string.
Proof.
  destruct (overlay_names_scan_order (IL := size_only_laws) (px 9 9) sample_extent 4 2)
    as (overlays & E & Hnames & _); [ lia | lia | ].
  exists overlays. split; [ exact E | ].
  rewrite Hnames. vm_compute. reflexivity.
Defined.

(** C9 as stated fails from the 1001st tile on.  A raster of 1000001 x 1
    pixels exported with a Custom cap of 2000 keeps its size and is cut into
    1001 tiles; the last one has the counter 1000 and is named
    [image_1000.jpg], with four digits: no name [image_NNN.jpg] of three
    digits. *)
Lemma name_digits_counterexample :
  plan_newW (make_plan 1000001 1 2 2000) = 1000001
  /\ plan_newH (make_plan 1000001 1 2 2000) = 1
  /\ plan_cols (make_plan 1000001 1 2 2000) = 1001
  /\ plan_rows (make_plan 1000001 1 2 2000) = 1
  /\ exists overlays o,
       tiles_loop (px 1000001 1) sample_extent 1001 1 = Done overlays
       /\ In o overlays
       /\ fname o = "image_1000.jpg"%string
       /\ forall n, fname o <> ("image_" ++ three_digits n ++ ".jpg")%string.
Proof.
  split; [ vm_compute; reflexivity | ]. split; [ vm_compute; reflexivity | ].
  split; [ vm_compute; reflexivity | ]. split; [ vm_compute; reflexivity | ].
  pose proof (@tiles_loop_scan size_only size_only_laws (px 1000001 1) sample_extent
                1001 1 ltac:(lia) ltac:(lia)) as E.
  pose proof (@scan_names size_only size_only_laws (px 1000001 1) sample_extent
                (ceil_div 1000001 1001) (ceil_div 1 1) 1001 (cells 1001 1)) as Hn.
  pose proof (plan_all_live 1000001 1 ltac:(lia) ltac:(lia)) as Hall.
  cbv zeta in Hall.
  change (ceil_div 1000001 TILE_SIDE) with 1001 in Hall.
  change (ceil_div 1 TILE_SIDE) with 1 in Hall.
  change (img_width (px 1000001 1)) with 1000001 in E, Hn.
  change (img_height (px 1000001 1)) with 1 in E, Hn.
  rewrite (filter_all _ _ Hall) in Hn.
  set (overlays := flat_map _ (cells 1001 1)) in E, Hn.
  assert (Hin : In (image_name 1000) (map fname overlays)).
  { rewrite Hn. apply (in_map (fun rc => image_name (fst rc * 1001 + snd rc))
                         (cells 1001 1) (0, 1000)).
    apply in_cells. lia. }
  apply in_map_iff in Hin. destruct Hin as (o & Ho & Hino).
  exists overlays, o. split; [ exact E | ]. split; [ exact Hino | ].
  split; [ exact Ho | ].
  intros n Hn'. rewrite Ho in Hn'.
  apply (f_equal String.length) in Hn'. cbn in Hn'. discriminate.
Qed.


(* ================================================================== *)
(** * The Custom tile cap below 1 *)
(* ================================================================== *)

Lemma tile_cap_of_custom (custom : Z) : tile_cap_of 2 custom = Z.max 1 custom.
Proof. reflexivity. Qed.

(** C3, as the code has it.  [processAlgorithm] does not reject a Custom
    tile cap below 1: it raises the cap to 1 and goes on, so that the export
    is the export with Custom cap 1, whatever the layer; the lower bound 1 is
    only declared, as [minValue] of the CUSTOM_CAP parameter. *)
Theorem custom_cap_below_1_is_clamped `{I : Imaging}
  (layer : option raster_layer) (W H custom : Z) :
  custom < 1 ->
  tile_cap_of 2 custom = 1
  /\ make_plan W H 2 custom = make_plan W H 2 1
  /\ processAlgorithm layer 2 custom = processAlgorithm layer 2 1
  /\ In (mk_parameter CUSTOM_CAP (IntegerParameter 250 (Some 1))) initAlgorithm.
Proof.
  intros Hc.
  assert (E : tile_cap_of 2 custom = tile_cap_of 2 1).
  { rewrite !tile_cap_of_custom. lia. }
  assert (P : forall w h, make_plan w h 2 custom = make_plan w h 2 1).
  { intros w h. unfold make_plan. now rewrite E. }
  split; [ rewrite E; reflexivity | ].
  split; [ apply P | ].
  split.
  - destruct layer as [ l | ]; [ | reflexivity ].
    unfold processAlgorithm. now rewrite P.
  - cbn. tauto.
Qed.

Lemma custom_cap_below_1_is_clamped_witness :
  tile_cap_of 2 (-3) = 1
  /\ make_plan 4 3 2 (-3) = make_plan 4 3 2 1
  /\ processAlgorithm (Some (flat_layer "x" 4 3 sample_extent 5)) 2 (-3)
     = processAlgorithm (Some (flat_layer "x" 4 3 sample_extent 5)) 2 1.
Proof.
  destruct (custom_cap_below_1_is_clamped
              (Some (flat_layer "x" 4 3 sample_extent 5)) 4 3 (-3))
    as (A & B & C & _); [ lia | ].
  split; [ exact A | ]. split; [ exact B | exact C ].
Defined.

(** Where C3 as stated fails: with the Custom device and the tile cap 0, a
    4 x 3 layer is exported, one tile and the document. *)
Lemma custom_cap_0_exports :
  exists jpg,
    processAlgorithm (Some (flat_layer "x" 4 3 sample_extent 5)) 2 0
    = Done [("doc.kml"%string,
             Kml (mk_kml "x" 1 [mk_ground_overlay "image_000.jpg" 50 40 20 10]));
            ("image_000.jpg"%string, Jpeg jpg)]
    /\ plan_cap (make_plan 4 3 2 0) = 1.
Proof.
  eexists. split; [ vm_compute; reflexivity | vm_compute; reflexivity ].
Qed.


(* ================================================================== *)
(** * The expressions taken exactly, and their doubles *)
(* ================================================================== *)

(** An integer of at most 53 bits is a double. *)
Lemma of_int_exact (n : Z) :
  Z.abs n < 2 ^ 53 -> (Float.of_int n == inject_Z n)%Q.
Proof.
  intros Hn. unfold Float.of_int, Float.f64.
  apply (round_to_exact 53 (-1074) n 0); [ exact Hn | lia | lia | ].
  change (Float.pow2 0) with 1%Q. ring.
Qed.

(** A multiple of [2^-j] of at most 53 bits is a double. *)
Lemma f64_exact (a j : Z) :
  Z.abs a < 2 ^ 53 -> 0 <= j <= 1074 ->
  (Float.f64 (inject_Z a * Float.pow2 (- j)) == inject_Z a * Float.pow2 (- j))%Q.
Proof.
  intros Ha Hj. unfold Float.f64.
  apply (round_to_exact 53 (-1074) a (- j)); [ exact Ha | lia | lia | reflexivity ].
Qed.

Lemma Qceiling_unique (x : Q) (k : Z) :
  (inject_Z (k - 1) < x)%Q -> (x <= inject_Z k)%Q -> Qceiling x = k.
Proof.
  intros Hlo Hhi.
  pose proof (Qle_ceiling x) as C1.
  pose proof (Qceiling_resp_le x (inject_Z k) Hhi) as C2.
  rewrite Qceiling_Z in C2.
  assert (C3 : (inject_Z (k - 1) < inject_Z (Qceiling x))%Q) by Lqa.lra.
  rewrite <- Zlt_Qlt in C3. lia.
Qed.

Lemma Qfloor_unique (x : Q) (k : Z) :
  (inject_Z k <= x)%Q -> (x < inject_Z (k + 1))%Q -> Qfloor x = k.
Proof.
  intros Hlo Hhi.
  pose proof (Qfloor_le x) as C1.
  pose proof (Qfloor_resp_le (inject_Z k) x Hlo) as C2.
  rewrite Qfloor_Z in C2.
  assert (C3 : (inject_Z (Qfloor x) < inject_Z (k + 1))%Q) by Lqa.lra.
  rewrite <- Zlt_Qlt in C3. lia.
Qed.

Lemma pow2_opp_mul (j : Z) : (Float.pow2 (- j) * Float.pow2 j == 1)%Q.
Proof.
  rewrite <- pow2_plus. replace (- j + j) with 0 by lia. reflexivity.
Qed.

(** The quotients of the tile grid.  For sizes below [2^46] the rounding of
    [n / float(d)] to a double does not move its ceiling: the grid that the
    machine computes is the grid of the exact quotient. *)
Theorem ceil_div_rounding (n d : Z) :
  0 <= n < 2 ^ 46 -> 1 <= d < 2 ^ 46 -> ceil_div_f64 n d = ceil_div n d.
Proof.
  intros Hn Hd.
  pose proof (ceil_div_spec n d ltac:(lia)) as Hk.
  set (k := ceil_div n d) in *.
  assert (Hk0 : 0 <= k) by nia.
  assert (Hkn : k <= n) by nia.
  assert (P46 : 2 ^ 46 < 2 ^ 53) by (apply Z.pow_lt_mono_r; lia).
  assert (Dpos : (0 < inject_Z d)%Q)
    by (change 0%Q with (inject_Z 0); rewrite <- Zlt_Qlt; lia).
  unfold ceil_div_f64, Py.ceil, Float.div.
  rewrite (round_to_comp 53 (-1074) _ (inject_Z n / inject_Z d))
    by (rewrite !of_int_exact by lia; reflexivity).
  fold (Float.f64 (inject_Z n / inject_Z d)).
  apply Qceiling_unique.
  - (* a double strictly above [k - 1] and not above the quotient *)
    pose proof (Z.log2_spec d ltac:(lia)) as [L1 L2].
    pose proof (Z.log2_nonneg d) as L0.
    set (j := Z.succ (Z.log2 d)) in *.
    assert (Hj : 1 <= j <= 46).
    { split; [ lia | ].
      destruct (Z.le_gt_cases j 46) as [ Hle | Hgt ]; [ exact Hle | exfalso ].
      assert (2 ^ 46 <= 2 ^ Z.log2 d) by (apply Z.pow_le_mono_r; lia). lia. }
    assert (EP : 2 ^ j = 2 * 2 ^ Z.log2 d) by (unfold j; rewrite Z.pow_succ_r by lia; ring).
    set (P := 2 ^ j) in *.
    assert (EPQ : (inject_Z P * Float.pow2 (- j) == 1)%Q).
    { unfold P. rewrite pow2_Z by lia. rewrite Qmult_comm. apply pow2_opp_mul. }
    set (lo := (inject_Z ((k - 1) * P + 1) * Float.pow2 (- j))%Q).
    assert (Elo : (Float.f64 lo == lo)%Q).
    { apply (f64_exact ((k - 1) * P + 1) j); [ | lia ]. nia. }
    assert (Hlo : (lo <= inject_Z n / inject_Z d)%Q).
    { apply Qle_shift_div_l; [ exact Dpos | ].
      unfold lo.
      assert (Hz : (inject_Z ((k - 1) * P + 1) * inject_Z d
                    <= inject_Z n * inject_Z P)%Q).
      { rewrite <- !inject_Z_mult, <- Zle_Qle. nia. }
      apply (Qmult_le_l _ _ (inject_Z P));
        [ change 0%Q with (inject_Z 0); rewrite <- Zlt_Qlt; lia | ].
      setoid_replace (inject_Z P
                      * (inject_Z ((k - 1) * P + 1) * Float.pow2 (- j) * inject_Z d))%Q
        with ((inject_Z P * Float.pow2 (- j))
              * (inject_Z ((k - 1) * P + 1) * inject_Z d))%Q by ring.
      rewrite EPQ. rewrite Qmult_1_l.
      rewrite (Qmult_comm (inject_Z P) (inject_Z n)). exact Hz. }
    pose proof (f64_mono _ _ Hlo) as Hm. rewrite Elo in Hm.
    assert (Hgt : (inject_Z (k - 1) < lo)%Q).
    { unfold lo. rewrite inject_Z_plus, inject_Z_mult.
      setoid_replace ((inject_Z (k - 1) * inject_Z P + inject_Z 1) * Float.pow2 (- j))%Q
        with (inject_Z (k - 1) * (inject_Z P * Float.pow2 (- j))
              + Float.pow2 (- j))%Q by (change (inject_Z 1) with 1%Q; ring).
      rewrite EPQ. pose proof (pow2_pos (- j)). Lqa.lra. }
    Lqa.lra.
  - assert (Hhi : (inject_Z n / inject_Z d <= inject_Z k)%Q).
    { apply Qle_shift_div_r; [ exact Dpos | ].
      rewrite <- inject_Z_mult, <- Zle_Qle. nia. }
    pose proof (f64_mono _ _ Hhi) as Hm.
    assert (Ek : (Float.f64 (inject_Z k) == inject_Z k)%Q)
      by (apply of_int_exact; lia).
    rewrite Ek in Hm. exact Hm.
Qed.

Lemma ceil_div_rounding_witness : ceil_div_f64 2500 1000 = ceil_div 2500 1000.
Proof. apply (ceil_div_rounding 2500 1000); lia. Defined.

(** The double written [0.9]. *)
Lemma nine_tenths_f64 : Float.f64 0.9 = (8106479329266893 # 9007199254740992)%Q.
Proof. vm_compute. reflexivity. Qed.

(** The product of the shrink loop.  For a side below [2^46] pixels the
    two roundings of [int(w * 0.9)], of the constant and of the product, do
    not move its integer part: the loop shrinks a side [w] to
    [max(1, 9*w/10)], as in exact arithmetic. *)
Theorem shrink_side_rounding (w : Z) :
  0 <= w < 2 ^ 46 -> shrink_side_f64 w = shrink_side w.
Proof.
  intros Hw. rewrite shrink_side_eq by lia. unfold shrink_side_f64. f_equal.
  pose proof (Z.div_mod (9 * w) 10 ltac:(lia)) as E.
  pose proof (Z.mod_pos_bound (9 * w) 10 ltac:(lia)) as B.
  set (q := 9 * w / 10) in *.
  assert (Hq : 0 <= q <= w) by lia.
  assert (P46 : 2 ^ 46 = 70368744177664) by reflexivity.
  assert (P53 : 2 ^ 53 = 9007199254740992) by reflexivity.
  unfold Float.mul.
  rewrite (round_to_comp 53 (-1074) _ (inject_Z w * Float.f64 0.9))
    by (rewrite of_int_exact by lia; reflexivity).
  fold (Float.f64 (inject_Z w * Float.f64 0.9)).
  rewrite nine_tenths_f64.
  set (x := Float.f64 (inject_Z w * (8106479329266893 # 9007199254740992))).
  assert (W0 : (0 <= inject_Z w)%Q)
    by (change 0%Q with (inject_Z 0); rewrite <- Zle_Qle; lia).
  assert (W1 : (inject_Z w <= 70368744177664)%Q)
    by (change 70368744177664%Q with (inject_Z 70368744177664); rewrite <- Zle_Qle; lia).
  assert (Q1 : (10 * inject_Z q <= 9 * inject_Z w)%Q).
  { change 10%Q with (inject_Z 10). change 9%Q with (inject_Z 9).
    rewrite <- !inject_Z_mult, <- Zle_Qle. lia. }
  assert (Q2 : (9 * inject_Z w <= 10 * inject_Z q + 9)%Q).
  { change 10%Q with (inject_Z 10). change 9%Q with (inject_Z 9).
    rewrite <- !inject_Z_mult, <- inject_Z_plus, <- Zle_Qle. lia. }
  assert (Lo : (inject_Z q <= x)%Q).
  { assert (H : (inject_Z q <= inject_Z w * (8106479329266893 # 9007199254740992))%Q)
      by Lqa.lra.
    pose proof (f64_mono _ _ H) as Hm.
    assert (Eq : (Float.f64 (inject_Z q) == inject_Z q)%Q) by (apply of_int_exact; lia).
    rewrite Eq in Hm. exact Hm. }
  assert (Hi : (x <= inject_Z q + (15 # 16))%Q).
  { assert (H : (inject_Z w * (8106479329266893 # 9007199254740992)
                 <= inject_Z (16 * q + 15) * Float.pow2 (Z.opp 4))%Q).
    { change (Float.pow2 (Z.opp 4)) with (1 # 16)%Q.
      rewrite inject_Z_plus, inject_Z_mult.
      change (inject_Z 16) with 16%Q. change (inject_Z 15) with 15%Q. Lqa.lra. }
    pose proof (f64_mono _ _ H) as Hm.
    rewrite (f64_exact (16 * q + 15) 4) in Hm by lia.
    change (Float.pow2 (Z.opp 4)) with (1 # 16)%Q in Hm.
    rewrite inject_Z_plus, inject_Z_mult in Hm.
    change (inject_Z 16) with 16%Q in Hm. change (inject_Z 15) with 15%Q in Hm.
    fold x in Hm. Lqa.lra. }
  assert (X0 : (0 <= x)%Q).
  { assert (Q0 : (0 <= inject_Z q)%Q)
      by (change 0%Q with (inject_Z 0); rewrite <- Zle_Qle; lia).
    Lqa.lra. }
  unfold Py.int. apply Qle_bool_iff in X0. rewrite X0.
  apply Qfloor_unique; [ exact Lo | ].
  rewrite inject_Z_plus. change (inject_Z 1) with 1%Q. Lqa.lra.
Qed.

Lemma shrink_side_rounding_witness : shrink_side_f64 2000 = shrink_side 2000.
Proof. apply (shrink_side_rounding 2000). lia. Defined.


(* ================================================================== *)
(** * The solver: what the returned scale is *)
(* ================================================================== *)

(** The scale the solver returns is never 1: it lies between the floor and
    [1 - 2^-40]; the lower end of the bisection is a multiple of [2^-40];
    and whenever that end is not below the floor, the returned scale passes
    the test of the bisection, the tile count as the machine computes it
    being within the cap. *)
Theorem scale_passes_own_test (W H tile_side cap : Z) :
  1 <= cap ->
  let s := _scale_for_tile_cap W H tile_side cap in
  (SCALE_FLOOR <= s)%Q
  /\ (s <= 1 - Float.pow2 (- 40))%Q
  /\ (exists a, 0 <= a < 2 ^ 40
        /\ (bisect_lo W H tile_side cap == inject_Z a * Float.pow2 (- 40))%Q)
  /\ ((SCALE_FLOOR <= bisect_lo W H tile_side cap)%Q ->
      (s == bisect_lo W H tile_side cap)%Q
      /\ grid_tiles W H tile_side s <= cap).
Proof.
  intros Hcap s.
  pose proof (bisect_between W H tile_side cap 40 0 0 0 1 ltac:(lia) ltac:(lia) dyadic_start)
    as HB.
  cbv zeta in HB. destruct HB as (B1 & B2 & B3 & a & D).
  assert (D' : dyadic 40 a (bisect_lo W H tile_side cap)
                 (snd (bisect 40 W H tile_side cap 0 1))) by exact D.
  destruct D' as (Ha & Elo & Ehi).
  assert (B1' : (0 <= bisect_lo W H tile_side cap)%Q) by exact B1.
  assert (E1 : (inject_Z (2 ^ 40) * Float.pow2 (- 40) == 1)%Q) by reflexivity.
  assert (Hlo : (bisect_lo W H tile_side cap <= 1 - Float.pow2 (- 40))%Q).
  { rewrite Elo.
    assert (Hz : (inject_Z a <= inject_Z (2 ^ 40) - 1)%Q).
    { assert (Hz' : (inject_Z a + 1 <= inject_Z (2 ^ 40))%Q).
      { change 1%Q with (inject_Z 1). rewrite <- inject_Z_plus, <- Zle_Qle. lia. }
      Lqa.lra. }
    pose proof (pow2_pos (- 40)) as Hp.
    apply (Qmult_le_compat_r _ _ (Float.pow2 (- 40))) in Hz; [ | Lqa.lra ].
    setoid_replace ((inject_Z (2 ^ 40) - 1) * Float.pow2 (- 40))%Q
      with (inject_Z (2 ^ 40) * Float.pow2 (- 40) - Float.pow2 (- 40))%Q in Hz by ring.
    rewrite E1 in Hz. exact Hz. }
  split; [ apply Q.le_max_l | ].
  split.
  { unfold s, _scale_for_tile_cap. apply Q.max_lub; [ | exact Hlo ].
    vm_compute. discriminate. }
  split; [ exists a; split; [ exact Ha | exact Elo ] | ].
  intros Hfl.
  assert (Es : (s == bisect_lo W H tile_side cap)%Q)
    by (unfold s, _scale_for_tile_cap; now apply Q.max_r).
  split; [ exact Es | ].
  pose proof (bisect_lo_fits W H tile_side cap 40 0 1 (fits_0 W H tile_side cap Hcap)) as Hf.
  assert (Hf' : fits W H tile_side cap (bisect_lo W H tile_side cap) = true) by exact Hf.
  rewrite <- (fits_comp W H tile_side cap _ _ Es) in Hf'.
  unfold fits in Hf'. now apply Z.leb_le in Hf'.
Qed.


Lemma scale_passes_own_test_witness :
  (_scale_for_tile_cap 21211 24746 1000 100 <= 1 - Float.pow2 (- 40))%Q
  /\ grid_tiles 21211 24746 1000 (_scale_for_tile_cap 21211 24746 1000 100) <= 100.
Proof.
  destruct (scale_passes_own_test 21211 24746 1000 100) as (_ & A & _ & B); [ lia | ].
  split; [ exact A | ].
  apply B. vm_compute. discriminate.
Defined.


(** The grid of the test grows with the scale. *)
Lemma of_int_nonneg (n : Z) : 0 <= n -> (0 <= Float.of_int n)%Q.
Proof.
  intros Hn. unfold Float.of_int, Float.f64. apply round_to_nonneg.
  change 0%Q with (inject_Z 0). rewrite <- Zle_Qle. exact Hn.
Qed.

Lemma of_int_pos (n : Z) : 1 <= n -> (1 <= Float.of_int n)%Q.
Proof.
  intros Hn.
  assert (H1 : (inject_Z 1 <= inject_Z n)%Q) by (rewrite <- Zle_Qle; exact Hn).
  apply f64_mono in H1. exact H1.
Qed.

Lemma grid_dim_mono (D t : Z) (x y : Q) :
  0 <= D -> 1 <= t -> (x <= y)%Q -> grid_dim D x t <= grid_dim D y t.
Proof.
  intros HD Ht Hxy. unfold grid_dim, Py.ceil. apply Qceiling_resp_le.
  unfold Float.div. apply f64_mono.
  pose proof (of_int_pos t Ht) as Tp. pose proof (of_int_nonneg D HD) as Dp.
  assert (Hm : (Float.mul (Float.of_int D) x <= Float.mul (Float.of_int D) y)%Q).
  { unfold Float.mul. apply f64_mono.
    rewrite !(Qmult_comm (Float.of_int D)). now apply Qmult_le_compat_r. }
  unfold Qdiv. apply Qmult_le_compat_r; [ exact Hm | ].
  apply Qlt_le_weak, Qinv_lt_0_compat. Lqa.lra.
Qed.

Lemma fits_mono (W H t cap : Z) (x y : Q) :
  0 <= W -> 0 <= H -> 1 <= t -> (x <= y)%Q ->
  fits W H t cap y = true -> fits W H t cap x = true.
Proof.
  intros HW HH Ht Hxy Hf. unfold fits, grid_tiles in *.
  apply Z.leb_le in Hf. apply Z.leb_le.
  pose proof (grid_dim_mono W t x y HW Ht Hxy).
  pose proof (grid_dim_mono H t x y HH Ht Hxy). nia.
Qed.

(** At scale 1.0 the grid of the test is not larger than the exact one. *)
Lemma grid_dim_1 (D t : Z) :
  0 <= D < 2 ^ 46 -> 1 <= t < 2 ^ 46 -> grid_dim D 1 t <= ceil_div D t.
Proof.
  intros HD Ht.
  pose proof (ceil_div_spec D t ltac:(lia)) as Hk.
  set (k := ceil_div D t) in *.
  assert (P46 : 2 ^ 46 < 2 ^ 53) by (apply Z.pow_lt_mono_r; lia).
  assert (Hk0 : 0 <= k <= D) by nia.
  unfold grid_dim, Py.ceil, Float.div, Float.mul.
  assert (Tpos : (0 < inject_Z t)%Q)
    by (change 0%Q with (inject_Z 0); rewrite <- Zlt_Qlt; lia).
  assert (E1 : (Float.f64 (Float.of_int D * 1) == inject_Z D)%Q).
  { unfold Float.f64.
    rewrite (round_to_comp 53 (-1074) _ (inject_Z D))
      by (rewrite of_int_exact by lia; ring).
    apply of_int_exact. lia. }
  rewrite (round_to_comp 53 (-1074) _ (inject_Z D / inject_Z t))
    by (rewrite E1, of_int_exact by lia; reflexivity).
  assert (Hhi : (inject_Z D / inject_Z t <= inject_Z k)%Q).
  { apply Qle_shift_div_r; [ exact Tpos | ].
    rewrite <- inject_Z_mult, <- Zle_Qle. nia. }
  apply f64_mono in Hhi.
  rewrite (of_int_exact k) in Hhi by lia.
  apply Qceiling_resp_le in Hhi. now rewrite Qceiling_Z in Hhi.
Qed.

Section AllFit.

Variables W H tile_side cap : Z.
Hypothesis all_fit :
  forall mid, (0 <= mid)%Q -> (mid <= 1)%Q -> fits W H tile_side cap mid = true.

(** When every midpoint passes the test, the bisection climbs at every
    round. *)
Lemma bisect_climbs (n : nat) :
  forall k lo hi,
    0 <= k -> k + Z.of_nat n <= 52 -> dyadic k (2 ^ k - 1) lo hi ->
    dyadic (k + Z.of_nat n) (2 ^ (k + Z.of_nat n) - 1)
      (fst (bisect n W H tile_side cap lo hi))
      (snd (bisect n W H tile_side cap lo hi)).
Proof.
  induction n as [ | n IH ]; intros k lo hi Hk Hn D.
  - cbn [bisect fst snd]. now replace (k + Z.of_nat 0) with k by lia.
  - rewrite bisect_S.
    assert (Hk' : 0 <= k <= 51) by lia.
    destruct (mid_between k (2 ^ k - 1) lo hi Hk' D) as [M1 M2].
    assert (Hlo : (0 <= lo)%Q).
    { destruct D as (Ha & Elo & _). rewrite Elo.
      apply Qmult_le_0_compat; [ | apply Qlt_le_weak, pow2_pos ].
      change 0%Q with (inject_Z 0). rewrite <- Zle_Qle. lia. }
    assert (Hhi : (hi == 1)%Q).
    { destruct D as (_ & _ & Ehi). rewrite Ehi.
      replace (2 ^ k - 1 + 1) with (2 ^ k) by lia.
      rewrite pow2_Z by lia. rewrite Qmult_comm. apply pow2_opp_mul. }
    rewrite all_fit by Lqa.lra.
    pose proof (dyadic_upper k (2 ^ k - 1) lo hi Hk' D) as Du.
    replace (2 * (2 ^ k - 1) + 1) with (2 ^ (k + 1) - 1) in Du
      by (rewrite Z.pow_add_r by lia; lia).
    replace (k + Z.of_nat (S n)) with (k + 1 + Z.of_nat n) by lia.
    apply IH; [ lia | lia | exact Du ].
Qed.

Lemma bisect_lo_top : (bisect_lo W H tile_side cap == 1 - Float.pow2 (- 40))%Q.
Proof.
  pose proof (bisect_climbs 40 0 0 1 ltac:(lia) ltac:(lia) dyadic_start) as D.
  assert (D' : dyadic 40 (2 ^ 40 - 1) (bisect_lo W H tile_side cap)
                 (snd (bisect 40 W H tile_side cap 0 1))) by exact D.
  destruct D' as (_ & Elo & _). rewrite Elo. reflexivity.
Qed.

End AllFit.

Lemma inject_Z_pred (n : Z) : (inject_Z (n - 1) == inject_Z n - 1)%Q.
Proof. unfold Z.sub. rewrite inject_Z_plus, inject_Z_opp. reflexivity. Qed.

(** Rounding a double within a quarter below an integer gives the integer. *)
Lemma round_near (n : Z) (x : Q) :
  (inject_Z n - (1 # 4) <= x)%Q -> (x <= inject_Z n)%Q -> Py.round x = n.
Proof.
  intros Hlo Hhi.
  pose proof (round_mono _ _ Hlo) as R1. pose proof (round_mono _ _ Hhi) as R2.
  rewrite round_Z in R2.
  assert (E : Py.round (inject_Z n - (1 # 4)) = n).
  { assert (F : Qfloor (inject_Z n - (1 # 4)) = n - 1).
    { apply Qfloor_unique.
      - rewrite inject_Z_pred. Lqa.lra.
      - replace (n - 1 + 1) with n by lia. Lqa.lra. }
    pose proof (round_cases (inject_Z n - (1 # 4))) as C. cbv zeta in C.
    rewrite F in C. rewrite inject_Z_pred in C.
    destruct C as [[_ C] | [C _]]; [ exfalso; Lqa.lra | ].
    rewrite C. lia. }
  lia.
Qed.

(** The resampled side at the top scale [1 - 2^-40] is the side itself. *)
Lemma round_top_scale (n : Z) (s : Q) :
  1 <= n < 2 ^ 31 -> (s == 1 - Float.pow2 (- 40))%Q ->
  Py.round (Float.mul (Float.of_int n) s) = n.
Proof.
  intros Hn Es.
  assert (P31 : 2 ^ 31 = 2147483648) by reflexivity.
  assert (P53 : 2 ^ 53 = 9007199254740992) by reflexivity.
  assert (P40 : Float.pow2 (- 40) = (1 # 1099511627776)%Q) by reflexivity.
  assert (N0 : (1 <= inject_Z n)%Q)
    by (change 1%Q with (inject_Z 1); rewrite <- Zle_Qle; lia).
  assert (N1 : (inject_Z n <= 2147483648)%Q)
    by (change 2147483648%Q with (inject_Z 2147483648); rewrite <- Zle_Qle; lia).
  unfold Float.mul.
  rewrite (round_to_comp 53 (-1074) _ (inject_Z n * (1 - (1 # 1099511627776))))
    by (rewrite of_int_exact by lia; rewrite Es, P40; reflexivity).
  fold (Float.f64 (inject_Z n * (1 - (1 # 1099511627776)))).
  set (x := (inject_Z n * (1 - (1 # 1099511627776)))%Q).
  assert (Q4 : (inject_Z (4 * n - 1) * Float.pow2 (Z.opp 2) == inject_Z n - (1 # 4))%Q).
  { change (Float.pow2 (Z.opp 2)) with (1 # 4)%Q.
    rewrite inject_Z_pred, inject_Z_mult.
    change (inject_Z 4) with 4%Q. ring. }
  apply round_near.
  - assert (Hx : (inject_Z (4 * n - 1) * Float.pow2 (Z.opp 2) <= x)%Q)
      by (rewrite Q4; unfold x; Lqa.lra).
    apply f64_mono in Hx. rewrite (f64_exact (4 * n - 1) 2) in Hx by lia.
    rewrite Q4 in Hx. exact Hx.
  - assert (Hx : (x <= inject_Z n)%Q) by (unfold x; Lqa.lra).
    apply f64_mono in Hx.
    assert (En : (Float.f64 (inject_Z n) == inject_Z n)%Q) by (apply of_int_exact; lia).
    rewrite En in Hx. exact Hx.
Qed.

(** A raster that is already within the cap keeps its size.  When the grid
    of the raster itself, [ceil(W/TILE_SIDE) * ceil(H/TILE_SIDE)], is within
    the tile cap, the solver returns its top value [1 - 2^-40], the
    resampled size is [W] x [H], and the planned grid is that grid. *)
Theorem fitting_raster_keeps_size (W H dev_ix custom : Z) :
  1 <= W < 2 ^ 31 -> 1 <= H < 2 ^ 31 ->
  ceil_div W TILE_SIDE * ceil_div H TILE_SIDE <= tile_cap_of dev_ix custom ->
  let p := make_plan W H dev_ix custom in
  (plan_scale p == 1 - Float.pow2 (- 40))%Q
  /\ plan_newW p = W /\ plan_newH p = H
  /\ plan_cols p = ceil_div W TILE_SIDE
  /\ plan_rows p = ceil_div H TILE_SIDE
  /\ plan_cols p * plan_rows p <= plan_cap p.
Proof.
  intros HW HH Hcap p.
  assert (P31 : 2 ^ 31 < 2 ^ 46) by (apply Z.pow_lt_mono_r; lia).
  assert (HT : 1 <= TILE_SIDE < 2 ^ 46).
  { rewrite TILE_SIDE_eq. split; [ lia | ].
    apply Z.lt_trans with (2 ^ 31); [ reflexivity | exact P31 ]. }
  set (cap := tile_cap_of dev_ix custom) in *.
  pose proof (ceil_div_pos W TILE_SIDE ltac:(lia) ltac:(lia)) as Cw.
  pose proof (ceil_div_pos H TILE_SIDE ltac:(lia) ltac:(lia)) as Ch.
  assert (F1 : fits W H TILE_SIDE cap 1 = true).
  { unfold fits, grid_tiles. apply Z.leb_le.
    pose proof (grid_dim_1 W TILE_SIDE ltac:(lia) HT).
    pose proof (grid_dim_1 H TILE_SIDE ltac:(lia) HT). nia. }
  assert (Fall : forall mid, (0 <= mid)%Q -> (mid <= 1)%Q ->
                   fits W H TILE_SIDE cap mid = true).
  { intros mid _ Hm. apply (fits_mono W H TILE_SIDE cap mid 1); try lia; assumption. }
  pose proof (bisect_lo_top W H TILE_SIDE cap Fall) as Elo.
  assert (Es : (_scale_for_tile_cap W H TILE_SIDE cap == 1 - Float.pow2 (- 40))%Q).
  { unfold _scale_for_tile_cap. rewrite Q.max_r; [ exact Elo | ].
    rewrite Elo. vm_compute. discriminate. }
  assert (EW : plan_newW p = W).
  { unfold p, make_plan. cbv zeta. cbn [plan_newW]. fold cap.
    rewrite (round_top_scale W _ HW Es). lia. }
  assert (EH : plan_newH p = H).
  { unfold p, make_plan. cbv zeta. cbn [plan_newH]. fold cap.
    rewrite (round_top_scale H _ HH Es). lia. }
  assert (EC : plan_cols p = ceil_div (plan_newW p) TILE_SIDE) by reflexivity.
  assert (ER : plan_rows p = ceil_div (plan_newH p) TILE_SIDE) by reflexivity.
  assert (EP : plan_cap p = cap) by reflexivity.
  rewrite EC, ER, EP, EW, EH.
  split; [ exact Es | ]. repeat split; try reflexivity. exact Hcap.
Qed.

Lemma fitting_raster_keeps_size_witness :
  plan_newW (make_plan 3000 2000 0 250) = 3000
  /\ plan_newH (make_plan 3000 2000 0 250) = 2000
  /\ plan_cols (make_plan 3000 2000 0 250) * plan_rows (make_plan 3000 2000 0 250) = 6.
Proof.
  destruct (fitting_raster_keeps_size 3000 2000 0 250) as (_ & A & B & C & D & _);
    [ split; [ lia | reflexivity ] | split; [ lia | reflexivity ]
    | vm_compute; discriminate | ].
  split; [ exact A | ]. split; [ exact B | ]. rewrite C, D. reflexivity.
Defined.
